(** * SimPEG.PF.Gravity: the integral gravity forward operator

    A shallow embedding of [src/SimPEG/PF/Gravity.py] (classes [Forward] and
    [GravityIntegral], and the matrices of [Problem3D_Diff]) and the
    properties of it that the specification states, followed by further
    properties of the code.

    Numbers.  numpy's float64 arrays are modelled over the real numbers
    [R]: [np.log] is [ln], [np.arctan] is [atan], [x ** 0.5] is [sqrt] and
    [/] is real division.  Rounding, infinities and NaN are not modelled;
    the logarithms of the kernel are taken of positive numbers only
    (lemma [log_argument_positive]), and where a denominator of the
    kernel vanishes the quotient is Rocq's [x / 0 = 0]; the module
    [Float64] computes that quotient in float64.  Python integers
    are [Z]: unbounded, with the true division [/] of Python 3 that the
    chunk planner relies on; its memory estimate and the budget are
    compared as exact rationals.

    Arrays.  A vector is a [list R]; an [n x 2] corner array is a
    [list (R * R)]; a dense matrix is the list of its rows.

    Effects.  [Forward.calculate] reads and writes zarr stores and calls
    the row kernel; both are recorded in a [world].  The methods of
    [GravityIntegral] also change the instance; they run in a small state
    and exception monad.  The [print] calls are left out; the progress
    messages are not part of the [world] and are modelled on their own
    ([progress]). *)

From Corelib Require PrimFloat.
From Stdlib Require Import Reals Lra Lia ZArith QArith String.
From stdpp Require Import base list strings gmap sorting.

Local Open Scope R_scope.

(** ** numpy vectors *)

Abbreviation vec := (list R).
Abbreviation matrix := (list (list R)).

Definition vadd (u v : vec) : vec := zip_with Rplus u v.
Definition vsub (u v : vec) : vec := zip_with Rminus u v.
Definition vmul (u v : vec) : vec := zip_with Rmult u v.
Definition vdiv (u v : vec) : vec := zip_with Rdiv u v.
(** A vector combined with a scalar (numpy broadcasting). *)
Definition sadd (u : vec) (c : R) : vec := (fun x => x + c) <$> u.
Definition smul (c : R) (u : vec) : vec := (fun x => c * x) <$> u.
Definition vsq (u : vec) : vec := (fun x => x ^ 2) <$> u.
Definition vsqrt (u : vec) : vec := sqrt <$> u.
Definition vlog (u : vec) : vec := ln <$> u.
Definition varctan (u : vec) : vec := atan <$> u.
Definition zeros (n : nat) : vec := replicate n 0.

Declare Scope vec_scope.
Delimit Scope vec_scope with V.
Infix "+" := vadd : vec_scope.
Infix "-" := vsub : vec_scope.
Infix "*" := vmul : vec_scope.
Infix "/" := vdiv : vec_scope.

(** [arr[:, k]] of an [n x 2] array, for [k] in [range(2)]. *)
Definition col (k : nat) (arr : list (R * R)) : vec :=
  (fun p => match k with O => fst p | _ => snd p end) <$> arr.

(** [arr - c] and [c - arr] on an [n x 2] array. *)
Definition arr_minus (arr : list (R * R)) (c : R) : list (R * R) :=
  (fun p => (fst p - c, snd p - c)) <$> arr.
Definition minus_arr (c : R) (arr : list (R * R)) : list (R * R) :=
  (fun p => (c - fst p, c - snd p)) <$> arr.

(** ** Exceptions *)

Inductive exn : Type :=
| Exception (msg : string)
| AssertionError (msg : string)
| ValueError (msg : string)
| TypeError
| ZeroDivisionError.

Inductive res (A : Type) : Type :=
| Ok (a : A)
| Raise (e : exn).
Arguments Ok {A} a.
Arguments Raise {A} e.

(** [np.dot(row, model)] for a [(1, n)] row and an [(n,)] vector: the
    one-element array holding the inner product; numpy raises on
    mismatched lengths. *)
Definition inner (u v : vec) : R := foldr Rplus 0 (zip_with Rmult u v).

Definition np_dot (row : vec) (model : option vec) : res vec :=
  match model with
  | None => Raise TypeError
  | Some m =>
      if decide (length row = length m) then Ok [inner row m]
      else Raise (ValueError "shapes not aligned")
  end.

(** ** The environment of a run

    What the libraries and the machine provide and the sources do not
    define: [scipy.constants.G], [multiprocessing.cpu_count()], and
    whether dask accepts a block shape, [dask_rechunk plan shape], for
    [stack.rechunk((rowChunk, colChunk))] on a stack of the given shape
    (rechunking regroups the blocks and keeps the values). *)

Record host := Host {
  constants_G : R;
  cpu_count : Z;
  dask_rechunk : Z * Z -> nat * nat -> res unit
}.

(** ** class Forward

    The attributes set by [Utils.setKwargs] from the keyword arguments,
    with the class defaults otherwise; [verbose] and [progressIndex]
    only serve the messages. *)

Definition receiver : Type := R * R * R.

Record Forward := mkForward {
  parallelized : option string;
  rxLoc : list receiver;
  Xn : list (R * R);
  Yn : list (R * R);
  Zn : list (R * R);
  n_cpu : option Z;
  forwardOnly : bool;
  model : option vec;
  rxType : string;
  maxRAM : Q;
  storeG : bool;
  Jpath : string
}.

Definition eps : R := 1e-8.

(** The expression subtracted from [row] for the corner [(aa, bb, cc)]
    (lines 350-375), on whole columns.  A quotient whose denominator is
    zero is Rocq's [x / 0 = 0] here, where numpy gives nan or an
    infinity ([quotients_defined] excludes it). *)
Definition corner_update (h : host) (self : Forward)
    (dx dy dz : list (R * R)) (aa bb cc : nat) : vec :=
  let NewtG := constants_G h * 1e+8 in
  let dxa := col aa dx in
  let dyb := col bb dy in
  let dzc := col cc dz in
  let r := vsqrt (vsq dxa + vsq dyb + vsq dzc)%V in
  let sign := NewtG * (-1) ^ aa * (-1) ^ bb * (-1) ^ cc in
  if decide (rxType self = "x"%string) then
    smul sign (dyb * vlog (sadd (dzc + r) eps) +
               dzc * vlog (sadd (dyb + r) eps) -
               dxa * varctan (dyb * dzc / sadd (dxa * r) eps))%V
  else if decide (rxType self = "y"%string) then
    smul sign (dxa * vlog (sadd (dzc + r) eps) +
               dzc * vlog (sadd (dxa + r) eps) -
               dyb * varctan (dxa * dzc / sadd (dyb * r) eps))%V
  else
    smul sign (dxa * vlog (sadd (dyb + r) eps) +
               dyb * vlog (sadd (dxa + r) eps) -
               dzc * varctan (dxa * dyb / sadd (dzc * r) eps))%V.

(** The three nested [for .. in range(2)] loops of [calcTrow]. *)
Definition calcTrow_row (h : host) (self : Forward) (xyzLoc : receiver) : vec :=
  let '(x0, y0, z0) := xyzLoc in
  let row := zeros (length (Xn self)) in
  let dz := minus_arr z0 (Zn self) in
  let dy := arr_minus (Yn self) y0 in
  let dx := arr_minus (Xn self) x0 in
  foldl (fun row aa =>
    foldl (fun row bb =>
      foldl (fun row cc =>
        (row - corner_update h self dx dy dz aa bb cc)%V)
      row (seq 0 2))
    row (seq 0 2))
  row (seq 0 2).

(** [Forward.calcTrow]: the row, or in forward-only mode its product with
    the model. *)
Definition calcTrow (h : host) (self : Forward) (xyzLoc : receiver) : res vec :=
  let row := calcTrow_row h self xyzLoc in
  if forwardOnly self then np_dot row (model self) else Ok row.

(** The instance with another [rxType]. *)
Definition with_rxType (c : string) (self : Forward) : Forward :=
  mkForward (parallelized self) (rxLoc self) (Xn self) (Yn self) (Zn self)
    (n_cpu self) (forwardOnly self) (model self) c (maxRAM self)
    (storeG self) (Jpath self).

(** The instance with another backend. *)
Definition with_backend (p : option string) (self : Forward) : Forward :=
  mkForward p (rxLoc self) (Xn self) (Yn self) (Zn self)
    (n_cpu self) (forwardOnly self) (model self) (rxType self) (maxRAM self)
    (storeG self) (Jpath self).

(** ** The kernel, cell by cell

    What [calcTrow] computes for one cell, written with scalars; the
    lemma [calcTrow_row_lookup] relates it to the column-wise code. *)

Definition pick (k : nat) (p : R * R) : R :=
  match k with O => fst p | _ => snd p end.

(** The parenthesised logarithm/arctangent expression for one corner, as
    a function of the corner-relative displacements. *)
Definition corner_term (rxType : string) (dx dy dz : R) : R :=
  let r := sqrt (dx ^ 2 + dy ^ 2 + dz ^ 2) in
  if decide (rxType = "x"%string) then
    dy * ln (dz + r + eps) + dz * ln (dy + r + eps)
    - dx * atan (dy * dz / (dx * r + eps))
  else if decide (rxType = "y"%string) then
    dx * ln (dz + r + eps) + dz * ln (dx + r + eps)
    - dy * atan (dx * dz / (dy * r + eps))
  else
    dx * ln (dy + r + eps) + dy * ln (dx + r + eps)
    - dz * atan (dx * dy / (dz * r + eps)).

Definition sum01 (f : nat -> R) : R := f 0%nat + f 1%nat.

(** The signed sum over the eight corners, corner [(a, b, c)] taken with
    sign [(-1)^(a+b+c)]. *)
Definition signed_corner_sum (rxType : string) (xyzLoc : receiver)
    (xn yn zn : R * R) : R :=
  let '(x0, y0, z0) := xyzLoc in
  sum01 (fun a => sum01 (fun b => sum01 (fun c =>
    (-1) ^ (a + b + c) *
    corner_term rxType (pick a xn - x0) (pick b yn - y0) (z0 - pick c zn)))).




(** The same quotient in the float64 arithmetic of numpy, where
    [x ** 2] is [x * x], [x ** 0.5] the square root and [eps] the
    float64 nearest to [1e-8]. *)
Module Float64.
Import PrimFloat.

Definition eps : float := 0x1.5798ee2308c3ap-27%float.




End Float64.

(** ** A worked cell

    One receiver at the origin, centred on the top face of the single
    cell [[-3,3] x [-4,4] x [-12,0]]; the corner distances are 5 and 13. *)

Definition host0 : host :=
  Host 6.6743e-11 4
    (fun plan shape =>
       if bool_decide (1 <= fst plan /\ 1 <= snd plan)%Z then Ok tt
       else Raise ZeroDivisionError).

Definition cell_job (p : option string) (fo : bool) (m : option vec) : Forward :=
  {| parallelized := p;
     rxLoc := [(0, 0, 0)];
     Xn := [(-3, 3)]; Yn := [(-4, 4)]; Zn := [(-12, 0)];
     n_cpu := Some 1%Z;
     forwardOnly := fo;
     model := m;
     rxType := "z";
     maxRAM := 8%Q;
     storeG := true;
     Jpath := "./sensitivity.zarr" |}.




(** ** The chunk planner (lines 241-250 of [Forward.calculate])

    [int(a / b)] truncates the quotient, [int(np.ceil(a / b))] rounds it
    up; both on Python integers.  The estimate
    [rowChunk * colChunk * 8 * n_cpu * 1e-9] and the budget are rationals. *)

Definition int_div (a b : Z) : Z := Z.quot a b.
Definition ceil_div (a b : Z) : Z := (- ((- a) / b))%Z.

Definition totRAM (rowChunk colChunk n_cpu : Z) : Q :=
  (inject_Z (rowChunk * colChunk * 8 * n_cpu) * (1 # 1000000000))%Q.

(** The [while totRAM > maxRAM] loop; [None] when [fuel] iterations do
    not reach its exit.  With exact numbers the loop has no exit for a
    budget below the estimate of a 1 x 1 chunk; in float64 the quotient
    [nD / nChunks] underflows to 0 after some thousand doublings and the
    code then leaves the loop with a 0 x 0 plan. *)
Fixpoint plan_loop (fuel : nat) (nD nC n_cpu : Z) (maxRAM : Q)
    (nChunks rowChunk colChunk : Z) : option (Z * Z) :=
  if Qle_bool (totRAM rowChunk colChunk n_cpu) maxRAM then
    Some (rowChunk, colChunk)
  else
    match fuel with
    | O => None
    | S fuel' =>
        let nChunks := (nChunks * 2)%Z in
        plan_loop fuel' nD nC n_cpu maxRAM nChunks
          (ceil_div nD nChunks) (ceil_div nC nChunks)
    end.

Definition chunk_plan (fuel : nat) (nD nC n_cpu : Z) (maxRAM : Q)
  : option (res (Z * Z)) :=
  if decide (n_cpu = 0%Z) then Some (Raise ZeroDivisionError)
  else
    Ok <$> plan_loop fuel nD nC n_cpu maxRAM n_cpu
             (int_div nD n_cpu) (int_div nC n_cpu).

(** ** Arrays and the file system

    [da.from_zarr(path)] is a handle on the store at [path]; its values
    are those the store holds when it is read.  The world of a run is
    the set of zarr stores on disk together with the log of the
    receivers handed to [calcTrow] (the invocation counter the
    specification's round-trip test speaks of). *)

Inductive array : Type :=
| InMemory (rows : matrix)
| FromZarr (path : string).

Record world := World {
  files : gmap string (list (list R));
  kernel_calls : list receiver
}.

Definition log_call (xyzLoc : receiver) (w : world) : world :=
  World (files w) (kernel_calls w ++ [xyzLoc]).

Definition to_zarr (stack : matrix) (path : string) (w : world) : world :=
  World (<[path := stack]> (files w)) (kernel_calls w).

Definition contents (w : world) (G : array) : option matrix :=
  match G with
  | InMemory rows => Some rows
  | FromZarr path => files w !! path
  end.

(** [calcTrow] applied to the receivers in order, each call logged; the
    first exception ends the evaluation. *)
Fixpoint eval_rows (h : host) (self : Forward) (rx : list receiver)
    (w : world) : res (list (list R)) * world :=
  match rx with
  | [] => (Ok [], w)
  | xyzLoc :: rest =>
      let w1 := log_call xyzLoc w in
      match calcTrow h self xyzLoc with
      | Raise e => (Raise e, w1)
      | Ok row =>
          match eval_rows h self rest w1 with
          | (Ok rows, w2) => (Ok (row :: rows), w2)
          | (Raise e, w2) => (Raise e, w2)
          end
      end
  end.

(** [np.vstack] and [da.vstack] refuse an empty sequence. *)
Definition vstack {A : Type} (rows : list A) : res (list A) :=
  match rows with
  | [] => Raise (ValueError "need at least one array to concatenate")
  | _ => Ok rows
  end.

(** Python's truth value of [self.parallelized]. *)
Definition truthy (p : option string) : bool :=
  match p with
  | None => false
  | Some s => negb (String.eqb s EmptyString)
  end.

Definition bad_backend_message (p : string) : string :=
  ("'parallelization' must be 'dask', 'multiprocessing' or None" ++
   "Value provided -> " ++ p)%string.

(** The rows in receiver order, as [pool.map] and the sequential loop
    produce them, stacked by [np.vstack].  The log lists the calls in
    receiver order; the processes of the worker pool run concurrently,
    so for that backend the log tells which calls are made, not their
    order. *)
Definition stack_rows (h : host) (self : Forward) (w : world)
  : res array * world :=
  match eval_rows h self (rxLoc self) w with
  | (Raise e, w1) => (Raise e, w1)
  | (Ok result, w1) =>
      match vstack result with
      | Raise e => (Raise e, w1)
      | Ok G => (Ok (InMemory G), w1)
      end
  end.

(** The backends, after the chunk plan [(rowChunk, colChunk)], with
    assertions enabled.  The progress messages of the sequential loop and
    the [print] calls are not modelled.  In the dask branch the rows are
    delayed: the graph is built and rechunked first, the kernel runs when
    the stack is stored or computed, and the blocks are taken as
    [calcTrow] returns them. *)
Definition assemble (h : host) (self : Forward) (n_cpu : Z)
    (plan : Z * Z) (w : world) : res array * world :=
  if truthy (parallelized self) then
    let p := default EmptyString (parallelized self) in
    if negb (bool_decide (p ∈ ["dask"; "multiprocessing"]%string)) then
      (Raise (AssertionError (bad_backend_message p)), w)
    else if bool_decide (p = "dask"%string) then
      match files w !! Jpath self with
      | Some _ => (Ok (FromZarr (Jpath self)), w)
      | None =>
          match vstack (rxLoc self) with
          | Raise e => (Raise e, w)
          | Ok _ =>
              match dask_rechunk h plan
                      (length (rxLoc self), length (Xn self)) with
              | Raise e => (Raise e, w)
              | Ok _ =>
                  match eval_rows h self (rxLoc self) w with
                  | (Raise e, w1) => (Raise e, w1)
                  | (Ok stack, w1) =>
                      if storeG self then
                        (Ok (FromZarr (Jpath self)),
                         to_zarr stack (Jpath self) w1)
                      else (Ok (InMemory stack), w1)
                  end
              end
          end
      end
    else
      if bool_decide (n_cpu < 1)%Z then
        (Raise (ValueError "Number of processes must be at least 1"), w)
      else stack_rows h self w
  else stack_rows h self w.

(** [Forward.calculate]; [None] when the planning loop does not end
    within [fuel] iterations. *)
Definition calculate (fuel : nat) (h : host) (self : Forward) (w : world)
  : option (res array * world) :=
  let nD := Z.of_nat (length (rxLoc self)) in
  let nC := Z.of_nat (length (Xn self)) in
  let n_cpu := default (cpu_count h) (n_cpu self) in
  match chunk_plan fuel nD nC n_cpu (maxRAM self) with
  | None => None
  | Some (Raise e) => Some (Raise e, w)
  | Some (Ok plan) => Some (assemble h self n_cpu plan w)
  end.

(** ** Matrices of the facade

    [rhoMap.deriv(m)], [sdiag(v)] and their products are scipy sparse
    matrices: a shape and the entries.  [G] and the arrays built from it
    are dense, lists of rows. *)

Record spmatrix := SpMatrix {
  nrows : nat;
  ncols : nat;
  entry : nat -> nat -> R
}.

Definition big_sum (n : nat) (f : nat -> R) : R :=
  foldr (fun k acc => f k + acc) 0 (seq 0 n).

(** Modelled from the spec: [Utils.sdiag] is not among the sources; it
    is [diag(v)], the diagonal matrix of a vector. *)
Definition sdiag (v : vec) : spmatrix :=
  SpMatrix (length v) (length v)
    (fun i j => if decide (i = j) then nth i v 0 else 0).

(** [A * B] on sparse matrices. *)
Definition sp_mul (A B : spmatrix) : res spmatrix :=
  if decide (ncols A = nrows B) then
    Ok (SpMatrix (nrows A) (ncols B)
          (fun i j => big_sum (ncols A) (fun k => entry A i k * entry B k j)))
  else Raise (ValueError "dimension mismatch").

Definition sp_T (A : spmatrix) : spmatrix :=
  SpMatrix (ncols A) (nrows A) (fun i j => entry A j i).

(** [A.power(2.)], entry by entry. *)
Definition sp_power2 (A : spmatrix) : spmatrix :=
  SpMatrix (nrows A) (ncols A) (fun i j => entry A i j ^ 2).

(** [mkvc(np.sum(A, axis=0))]: the column sums. *)
Definition sp_sum_axis0 (A : spmatrix) : vec :=
  (fun j => big_sum (nrows A) (fun i => entry A i j)) <$> seq 0 (ncols A).

Definition sp_diagonal (A : spmatrix) : vec :=
  (fun i => entry A i i) <$> seq 0 (Nat.min (nrows A) (ncols A)).

(** [np.sum(M, axis=0)] of a dense matrix with at least one row. *)
Definition sum_axis0 (M : matrix) : vec :=
  match M with
  | [] => []
  | r :: rs => foldl vadd r rs
  end.

(** [da.sum(G**2., 0)]. *)
Definition colSumSquares (G : matrix) : vec := sum_axis0 (vsq <$> G).

(** The sum of the squared entries of column [j] of [G], as the
    specification describes the entries of [colSumSquares(G)]. *)
Definition column_sum_of_squares (G : matrix) (j : nat) : R :=
  foldr Rplus 0 ((fun row => nth j row 0 ^ 2) <$> G).

(** [da.dot(G, m)] for a dense [G] and a vector [m]. *)
Definition mat_vec (G : matrix) (m : vec) : res vec :=
  if forallb (fun row => Nat.eqb (length row) (length m)) G then
    Ok ((fun row => inner row m) <$> G)
  else Raise (ValueError "shapes not aligned").

Fixpoint transpose (M : matrix) : matrix :=
  match M with
  | [] => []
  | r :: rs =>
      match rs with
      | [] => (fun x => [x]) <$> r
      | _ => zip_with cons r (transpose rs)
      end
  end.

(** Modelled from the spec: [Utils.mkvc] is not among the sources.  It
    flattens an array to a vector, column by column; on the column of
    forward-only responses it gives the vector of the responses of the
    receivers. *)
Definition mkvc (x : matrix) : vec := concat (transpose x).

(** ** class GravityIntegral *)

Module GravityIntegral.

(** The attributes of an instance.  [survey] holds the receiver
    locations [survey.srcField.rxList[0].locs] once a survey is paired;
    [Xn], [Yn], [Zn] are the corner arrays that [Intrgl_Fwr_Op] derives
    from the mesh and [actInd]; [rhoMap] is the model map ([rhoMap * m])
    and [rhoMap_deriv] its derivative. *)
Record t := mk {
  forwardOnly : bool;
  rxType : string;
  parallelized : option string;
  n_cpu : option Z;
  Jpath : string;
  maxRAM : Q;
  survey : option (list receiver);
  Xn : list (R * R);
  Yn : list (R * R);
  Zn : list (R * R);
  rhoMap : vec -> vec;
  rhoMap_deriv : vec -> spmatrix;
  model : option vec;
  _G : option array;
  gtgdiag : option vec
}.

Definition set_model (m : option vec) (s : t) : t :=
  mk (forwardOnly s) (rxType s) (parallelized s) (n_cpu s) (Jpath s)
     (maxRAM s) (survey s) (Xn s) (Yn s) (Zn s) (rhoMap s) (rhoMap_deriv s)
     m (_G s) (gtgdiag s).

Definition set_G (g : option array) (s : t) : t :=
  mk (forwardOnly s) (rxType s) (parallelized s) (n_cpu s) (Jpath s)
     (maxRAM s) (survey s) (Xn s) (Yn s) (Zn s) (rhoMap s) (rhoMap_deriv s)
     (model s) g (gtgdiag s).

Definition set_gtgdiag (d : option vec) (s : t) : t :=
  mk (forwardOnly s) (rxType s) (parallelized s) (n_cpu s) (Jpath s)
     (maxRAM s) (survey s) (Xn s) (Yn s) (Zn s) (rhoMap s) (rhoMap_deriv s)
     (model s) (_G s) d.

(** Modelled from the spec: the base class [Problem.BaseProblem] is not
    among the sources; an instance is paired once it is bound to a
    survey. *)
Definition ispaired (s : t) : bool :=
  match survey s with Some _ => true | None => false end.

(** Methods run on the instance and the world; an exception keeps the
    state reached so far; [None] is a planning loop that did not end. *)
Definition M (A : Type) : Type := t -> world -> option (res A * t * world).

Definition ret {A : Type} (a : A) : M A := fun s w => Some (Ok a, s, w).
Definition raise {A : Type} (e : exn) : M A := fun s w => Some (Raise e, s, w).
Definition bind {A B : Type} (m : M A) (k : A -> M B) : M B :=
  fun s w =>
    match m s w with
    | None => None
    | Some (Raise e, s', w') => Some (Raise e, s', w')
    | Some (Ok a, s', w') => k a s' w'
    end.
Definition get : M t := fun s w => Some (Ok s, s, w).
Definition modify (f : t -> t) : M unit := fun s w => Some (Ok tt, f s, w).
Definition lift {A : Type} (r : res A) : M A := fun s w => Some (r, s, w).

Notation "'let*' x ':=' m 'in' k" := (bind m (fun x => k))
  (at level 10, x name, m at level 100, k at level 200, only parsing).

(** The values of an array at the time it is used. *)
Definition read (g : array) : M matrix :=
  fun s w =>
    match contents w g with
    | Some rows => Some (Ok rows, s, w)
    | None => Some (Raise (ValueError "array not found"), s, w)
    end.

(** The [Forward] job that [Intrgl_Fwr_Op] builds for the receivers
    [locs]. *)
Definition job (self : t) (locs : list receiver) : Forward :=
  mkForward (parallelized self) locs (Xn self) (Yn self) (Zn self)
    (n_cpu self) (forwardOnly self) (model self) (rxType self)
    (maxRAM self) true (Jpath self).

(** [Intrgl_Fwr_Op(m)]: maps a model that is given and keeps it in
    [self.model], then builds the job on the paired receivers and runs
    it. *)
Definition Intrgl_Fwr_Op (fuel : nat) (h : host) (m : option vec) : M array :=
  let* _ := match m with
            | Some m => modify (fun s => set_model (Some (rhoMap s m)) s)
            | None => ret tt
            end in
  let* self := get in
  match survey self with
  | None => raise (Exception "'NoneType' object has no attribute 'srcField'")
  | Some locs =>
      fun s w =>
        match calculate fuel h (job self locs) w with
        | None => None
        | Some (r, w') => Some (r, s, w')
        end
  end.

(** The property [G]. *)
Definition G (fuel : nat) (h : host) : M array :=
  let* self := get in
  if negb (ispaired self) then raise (Exception "Need to pair!")
  else
    match _G self with
    | Some g => ret g
    | None =>
        let* g := Intrgl_Fwr_Op fuel h None in
        let* _ := modify (set_G (Some g)) in
        ret g
    end.

(** [fields(m)]: the mapped model goes to [Intrgl_Fwr_Op] in forward-only
    mode, and is multiplied by [G] otherwise. *)
Definition fields (fuel : nat) (h : host) (m : vec) : M vec :=
  let* self := get in
  let m := rhoMap self m in
  if forwardOnly self then
    let* fields := Intrgl_Fwr_Op fuel h (Some m) in
    let* values := read fields in
    ret (mkvc values)
  else
    let* g := G fuel h in
    let* rows := read g in
    lift (mat_vec rows m).

(** [getJtJdiag(m, W)]: [w] is computed from [W] (or from the width of
    [G]) and not used; [gtgdiag] is filled when it is [None]. *)
Definition getJtJdiag (fuel : nat) (h : host) (m : vec)
    (W : option spmatrix) : M vec :=
  let* self := get in
  let dmudm := rhoMap_deriv self m in
  let* _ := modify (set_model (Some m)) in
  let* self := get in
  let* _ :=
    match gtgdiag self with
    | None =>
        let* _ := match W with
                  | None => let* g := G fuel h in ret tt
                  | Some W => ret tt
                  end in
        let* g := G fuel h in
        let* rows := read g in
        modify (set_gtgdiag (Some (colSumSquares rows)))
    | Some _ => ret tt
    end in
  let* self := get in
  let* prod := lift (sp_mul (sdiag (vsqrt (default [] (gtgdiag self)))) dmudm) in
  ret (sp_sum_axis0 (sp_power2 prod)).

End GravityIntegral.

(** What [getJtJdiag] computes from the column sums of squares [c]. *)
Definition JtJdiag_of (dmudm : spmatrix) (c : vec) : res vec :=
  match sp_mul (sdiag (vsqrt c)) dmudm with
  | Ok prod => Ok (sp_sum_axis0 (sp_power2 prod))
  | Raise e => Raise e
  end.

(** ** The specification's formula for [getJtJdiag]

    [diag(dMap(m)^T * diag(c) * dMap(m))] for the column sums of squares
    [c], with the matrix products written out. *)
Definition JtJdiag_spec (dMap : spmatrix) (c : vec) : res vec :=
  match sp_mul (sp_T dMap) (sdiag c) with
  | Raise e => Raise e
  | Ok DtC =>
      match sp_mul DtC dMap with
      | Raise e => Raise e
      | Ok DtCD => Ok (sp_diagonal DtCD)
      end
  end.

(** The empty world, and a world that already holds a store at the
    default path, with the single entry 0. *)
Definition world0 : world := World ∅ [].
Definition world_stale : world :=
  World {[ "./sensitivity.zarr"%string := [[0]] ]} [].

(** Two model maps of [SimPEG.Maps], used in the worked problems:
    [IdentityMap] and [ExpMap] ([rhoMap * m = exp(m)], entry by entry). *)
Definition IdentityMap : vec -> vec := fun m => m.
Definition IdentityMap_deriv : vec -> spmatrix :=
  fun m => sdiag (replicate (length m) 1).
Definition ExpMap : vec -> vec := fun m => exp <$> m.
Definition ExpMap_deriv : vec -> spmatrix := fun m => sdiag (exp <$> m).

(** The worked cell as a problem: sequential backend, one worker. *)
Definition cell_problem (fo : bool) (survey : option (list receiver))
    (rhoMap : vec -> vec) (deriv : vec -> spmatrix) : GravityIntegral.t :=
  GravityIntegral.mk fo "z" None (Some 1%Z) "./sensitivity.zarr" 8%Q survey
    [(-3, 3)] [(-4, 4)] [(-12, 0)] rhoMap deriv None None None.

(** The row of the worked cell, and the state and value that
    [getJtJdiag([1])] reaches on the worked problem with the identity
    map. *)
Definition cell_row : vec :=
  calcTrow_row host0 (cell_job None false None) (0, 0, 0).

Definition cell_problem_id : GravityIntegral.t :=
  cell_problem false (Some [(0, 0, 0)]) IdentityMap IdentityMap_deriv.

Definition cell_problem_after : GravityIntegral.t :=
  GravityIntegral.set_gtgdiag (Some (colSumSquares [cell_row]))
    (GravityIntegral.set_G (Some (InMemory [cell_row]))
       (GravityIntegral.set_model (Some [1]) cell_problem_id)).

Definition cell_JtJdiag : vec :=
  sp_sum_axis0
    (sp_power2
       (SpMatrix 1 1
          (fun i j =>
             big_sum 1
               (fun k =>
                  entry (sdiag (vsqrt (colSumSquares [cell_row]))) i k *
                  entry (IdentityMap_deriv [1]) k j)))).

(** The world after the worked cell has been assembled with the dask
    backend from the empty world: its store holds the row, and the kernel
    has been called once. *)
Definition world_stored : world :=
  to_zarr [cell_row] "./sensitivity.zarr" (World ∅ [(0, 0, 0)]).

(** * Further definitions

    The rest of [Gravity.py]: variants of a job used to state properties
    of the kernel, the progress messages, the operators [Jvec] and
    [Jtvec], the geometry that [Intrgl_Fwr_Op] derives from the mesh, and
    the matrices of [Problem3D_Diff].  Left out: [getJ], whose
    [da.dot(G, dmudm)] hands a scipy sparse matrix to dask, and
    [Problem3D_Diff.fields], which calls an iterative solver of scipy. *)

(** ** Variants of a job *)

(** An [n x 2] array moved by [t]. *)
Definition arr_shift (arr : list (R * R)) (t : R) : list (R * R) :=
  (fun p => (fst p + t, snd p + t)) <$> arr.

(** The job with all its cells moved by [(tx, ty, tz)]. *)
Definition translate (tx ty tz : R) (self : Forward) : Forward :=
  mkForward (parallelized self) (rxLoc self)
    (arr_shift (Xn self) tx) (arr_shift (Yn self) ty) (arr_shift (Zn self) tz)
    (n_cpu self) (forwardOnly self) (model self) (rxType self) (maxRAM self)
    (storeG self) (Jpath self).

(** The job in the other mode. *)
Definition with_forwardOnly (b : bool) (self : Forward) : Forward :=
  mkForward (parallelized self) (rxLoc self) (Xn self) (Yn self) (Zn self)
    (n_cpu self) b (model self) (rxType self) (maxRAM self)
    (storeG self) (Jpath self).

Definition swap (p : R * R) : R * R := (snd p, fst p).

(** The corners of cell [j] of a job. *)
Definition cell : Type := (R * R) * (R * R) * (R * R).

Definition cell_at (self : Forward) (j : nat) : option cell :=
  match Xn self !! j, Yn self !! j, Zn self !! j with
  | Some xn, Some yn, Some zn => Some (xn, yn, zn)
  | _, _, _ => None
  end.

(** A cell with its two corners exchanged along one axis. *)
Inductive flipped : cell -> cell -> Prop :=
| flipped_x xn yn zn : flipped (xn, yn, zn) (swap xn, yn, zn)
| flipped_y xn yn zn : flipped (xn, yn, zn) (xn, swap yn, zn)
| flipped_z xn yn zn : flipped (xn, yn, zn) (xn, yn, swap zn).

(** [halves c c1 c2]: the cell [c] cut in two by a plane across one
    axis, at the coordinate [b]. *)
Inductive halves : cell -> cell -> cell -> Prop :=
| halves_x a b d yn zn :
    halves ((a, d), yn, zn) ((a, b), yn, zn) ((b, d), yn, zn)
| halves_y a b d xn zn :
    halves (xn, (a, d), zn) (xn, (a, b), zn) (xn, (b, d), zn)
| halves_z a b d xn yn :
    halves (xn, yn, (a, d)) (xn, yn, (a, b)) (xn, yn, (b, d)).

(** The worked cell (index 0) beside its two halves across the plane
    [z = -5] (indices 1 and 2). *)
Definition split_job : Forward :=
  mkForward None [(0, 0, 0)] [(-3, 3); (-3, 3); (-3, 3)]
    [(-4, 4); (-4, 4); (-4, 4)] [(-12, 0); (-12, -5); (-5, 0)] (Some 1%Z)
    false None "z" 8%Q true "./sensitivity.zarr".

(** An empty survey on the worked cell. *)
Definition empty_job (p : option string) : Forward :=
  mkForward p [] [(-3, 3)] [(-4, 4)] [(-12, 0)] (Some 1%Z)
    false None "z" 8%Q true "./sensitivity.zarr".

(** ** The candidates of the chunk planner

    The chunk sizes that the planner tries in turn: the start, then the
    sizes after [k] doublings of [nChunks]. *)
Definition candidate (nD nC n_cpu : Z) (k : nat) : Z * Z :=
  match k with
  | O => (int_div nD n_cpu, int_div nC n_cpu)
  | S _ => (ceil_div nD (n_cpu * 2 ^ Z.of_nat k),
            ceil_div nC (n_cpu * 2 ^ Z.of_nat k))
  end.

Definition fits (n_cpu : Z) (maxRAM : Q) (plan : Z * Z) : Prop :=
  (totRAM (fst plan) (snd plan) n_cpu <= maxRAM)%Q.

(** ** Progress messages (lines 382-396)

    [Forward.progress(ind, total)] on the state [(progressIndex,
    messages)], the messages being the percentages [arg * 10] printed so
    far.  [np.floor(ind / total * 10.)] is the floor of the exact
    quotient. *)
Definition progress (ind total : Z) (s : Z * list Z) : res (Z * list Z) :=
  if decide (total = 0%Z) then Raise ZeroDivisionError
  else
    let arg := (ind * 10 / total)%Z in
    if (fst s <? arg)%Z then Ok (arg, snd s ++ [(arg * 10)%Z])
    else Ok s.

(** The decile of the index [ii] among [total]. *)
Definition decile (total : Z) (ii : nat) : Z :=
  (Z.of_nat ii * 10 / total)%Z.

(** The calls [self.progress(ii, self.nD)] of the sequential loop, for
    the indices [iis] in turn. *)
Fixpoint progress_calls (total : Z) (iis : list nat) (s : Z * list Z)
  : res (Z * list Z) :=
  match iis with
  | [] => Ok s
  | ii :: rest =>
      match progress (Z.of_nat ii) total s with
      | Ok s' => progress_calls total rest s'
      | Raise e => Raise e
      end
  end.

(** The messages of a sequential run over [nD] receivers, from the class
    default [progressIndex = -1]. *)
Definition sequential_progress (nD : nat) : res (Z * list Z) :=
  progress_calls (Z.of_nat nD) (seq 0 nD) ((-1)%Z, []).

(** ** The operators [Jvec] and [Jtvec] (lines 94-105)

    [A * v] for a sparse matrix and a vector. *)
Definition sp_matvec (A : spmatrix) (v : vec) : res vec :=
  if decide (ncols A = length v) then
    Ok ((fun i => big_sum (ncols A) (fun k => entry A i k * nth k v 0))
          <$> seq 0 (nrows A))
  else Raise (ValueError "dimension mismatch").

(** The unit vector [e_j] of length [n]. *)
Definition unit_vec (n j : nat) : vec :=
  (fun k => if decide (k = j) then 1 else 0) <$> seq 0 n.

Module Operators.
Import GravityIntegral.

(** [astype(np.float32)] rounds every entry to single precision; the
    rounding is the parameter [float32].  [astype(np.float64)] on the
    product changes no value.  The products are dask arrays: the values
    given are the ones they have in the world that the call leaves. *)
Definition Jvec (fuel : nat) (h : host) (float32 : R -> R) (m v : vec)
  : M vec :=
  let* self := get in
  let dmudm := rhoMap_deriv self m in
  let* g := G fuel h in
  let* x := lift (sp_matvec dmudm v) in
  let* rows := read g in
  lift (mat_vec rows (float32 <$> x)).

Definition Jtvec (fuel : nat) (h : host) (float32 : R -> R) (m v : vec)
  : M vec :=
  let* self := get in
  let dmudm := rhoMap_deriv self m in
  let* g := G fuel h in
  let* rows := read g in
  let* vec := lift (mat_vec (transpose rows) (float32 <$> v)) in
  lift (sp_matvec (sp_T dmudm) vec).

End Operators.

(** ** The geometry of [Intrgl_Fwr_Op] (lines 138-185)

    The corner arrays [Xn], [Yn], [Zn] of the job, from the mesh, the
    active cells [actInd] and [equiSourceLayer]. *)

(** [self.actInd]: a boolean mask over the cells, or an array of cell
    indices. *)
Inductive actInd : Type :=
| Mask (elems : list bool)
| Indices (inds : list Z).

(** What the code reads of [self.mesh]: a tensor mesh has the node
    vectors [vectorNx], [vectorNy], [vectorNz]; a tree mesh has the cell
    centres [gridCC] and the cell widths [h_gridded], one row for each
    cell in both. *)
Inductive mesh_kind : Type :=
| TensorMesh (vectorNx vectorNy vectorNz : vec)
| TreeMesh (gridCC h_gridded : list (R * R * R)).

Record mesh := Mesh {
  nC : nat;
  kind : mesh_kind
}.

(** [[inds for inds, elem in enumerate(actInd, 1) if elem]], minus 1. *)
Definition mask_inds (elems : list bool) : list Z :=
  (fun i => (Z.of_nat i - 1)%Z)
    <$> (fst <$> filter (fun p => snd p = true)
                   (zip (seq 1 (length elems)) elems)).

Definition active_inds (M : mesh) (act : option actInd) : list Z :=
  match act with
  | Some (Mask elems) => mask_inds elems
  | Some (Indices inds) => inds
  | None => Z.of_nat <$> seq 0 (nC M)
  end.

(** [csr_matrix((np.ones(nC), (inds, range(nC))), shape=(mesh.nC, nC))]:
    a one at row [inds[j]] of each column [j]; scipy refuses a row index
    outside the shape. *)
Definition projector (mesh_nC : nat) (inds : list Z) : res spmatrix :=
  if existsb (fun i => (Z.of_nat mesh_nC <=? i)%Z) inds then
    Raise (ValueError "row index exceeds matrix dimensions")
  else if existsb (fun i => (i <? 0)%Z) inds then
    Raise (ValueError "negative row index found")
  else
    Ok (SpMatrix mesh_nC (length inds)
          (fun i j =>
             if decide (inds !! j = Some (Z.of_nat i)) then 1 else 0)).

(** Three-dimensional arrays, as [np.meshgrid] returns them: [A[a][b][c]]. *)
Definition array3 : Type := list (list (list R)).

Definition at3 (A : array3) (a b c : nat) : R :=
  nth c (nth b (nth a A []) []) 0.

(** [np.meshgrid(x1, x2, x3)] with the default indexing: three arrays of
    shape [(len(x2), len(x1), len(x3))], holding [x1[b]], [x2[a]] and
    [x3[c]] at [[a][b][c]]. *)
Definition meshgrid (x1 x2 x3 : vec) : array3 * array3 * array3 :=
  ((fun _ => (fun y => (fun _ => y) <$> x3) <$> x1) <$> x2,
   (fun x => (fun _ => (fun _ => x) <$> x3) <$> x1) <$> x2,
   (fun _ => (fun _ => x3) <$> x1) <$> x2).

(** Modelled from the spec: [Utils.mkvc] on a three-dimensional array
    flattens it column by column, the first index running fastest. *)
Definition mkvc3 (A : array3) : vec :=
  let n1 := length A in
  let n2 := length (nth 0 A []) in
  let n3 := length (nth 0 (nth 0 A []) []) in
  c ← seq 0 n3; b ← seq 0 n2; a ← seq 0 n1; [at3 A a b c].

(** [np.c_[u, v]] of two vectors. *)
Definition c_ (u v : vec) : res (list (R * R)) :=
  if decide (length u = length v) then Ok (zip u v)
  else Raise (ValueError "all the input array dimensions must match").

(** The vectors [xn1, xn2, yn1, yn2, zn1, zn2] of the lower and upper
    corners, flattened for the tensor mesh as [Utils.mkvc] does. *)
Definition corner_vectors (M : mesh) : vec * vec * vec * vec * vec * vec :=
  match kind M with
  | TreeMesh gridCC h_gridded =>
      let bsw := zip_with (fun c h =>
                   (c.1.1 - h.1.1 / 2, c.1.2 - h.1.2 / 2, c.2 - h.2 / 2))
                   gridCC h_gridded in
      let tne := zip_with (fun c h =>
                   (c.1.1 + h.1.1 / 2, c.1.2 + h.1.2 / 2, c.2 + h.2 / 2))
                   gridCC h_gridded in
      ((fun p => p.1.1) <$> bsw, (fun p => p.1.1) <$> tne,
       (fun p => p.1.2) <$> bsw, (fun p => p.1.2) <$> tne,
       (fun p => p.2) <$> bsw, (fun p => p.2) <$> tne)
  | TensorMesh xn yn zn =>
      let '(yn2, xn2, zn2) := meshgrid (drop 1 yn) (drop 1 xn) (drop 1 zn) in
      let '(yn1, xn1, zn1) :=
        meshgrid (take (length yn - 1) yn) (take (length xn - 1) xn)
          (take (length zn - 1) zn) in
      (mkvc3 xn1, mkvc3 xn2, mkvc3 yn1, mkvc3 yn2, mkvc3 zn1, mkvc3 zn2)
  end.

(** [A * arr] for a sparse matrix and an [n x 2] array. *)
Definition sp_mul_arr (A : spmatrix) (arr : list (R * R))
  : res (list (R * R)) :=
  if decide (ncols A = length arr) then
    Ok ((fun j =>
           (big_sum (ncols A) (fun i => entry A j i * fst (nth i arr (0, 0))),
            big_sum (ncols A) (fun i => entry A j i * snd (nth i arr (0, 0)))))
          <$> seq 0 (nrows A))
  else Raise (ValueError "dimension mismatch").

(** [P.T * np.c_[u1, u2]]. *)
Definition project (P : spmatrix) (u1 u2 : vec) : res (list (R * R)) :=
  match c_ u1 u2 with
  | Ok arr => sp_mul_arr (sp_T P) arr
  | Raise e => Raise e
  end.

(** The arrays [(Xn, Yn, Zn)] that [Intrgl_Fwr_Op] hands to the job. *)
Definition geometry (M : mesh) (act : option actInd)
    (equiSourceLayer : bool)
  : res (list (R * R) * list (R * R) * list (R * R)) :=
  let inds := active_inds M act in
  match projector (nC M) inds with
  | Raise e => Raise e
  | Ok P =>
      let '(xn1, xn2, yn1, yn2, zn1, zn2) := corner_vectors M in
      let zn1 := if equiSourceLayer then sadd zn1 (-1000) else zn1 in
      match project P yn1 yn2 with
      | Raise e => Raise e
      | Ok Yn =>
          match project P xn1 xn2 with
          | Raise e => Raise e
          | Ok Xn =>
              match project P zn1 zn2 with
              | Raise e => Raise e
              | Ok Zn => Ok (Xn, Yn, Zn)
              end
          end
      end
  end.

(** A mesh whose attributes fit together: the tensor mesh has one cell
    for each triple of intervals of its node vectors, the tree mesh one
    centre and one width for each cell. *)
Definition mesh_ok (M : mesh) : Prop :=
  match kind M with
  | TensorMesh xn yn zn =>
      nC M = ((length xn - 1) * (length yn - 1) * (length zn - 1))%nat
  | TreeMesh gridCC h_gridded =>
      length gridCC = nC M /\ length h_gridded = nC M
  end.

(** [arr[inds]]: the rows of an array at the given indices. *)
Definition gather (inds : list Z) (arr : list (R * R)) : list (R * R) :=
  (fun i => nth (Z.to_nat i) arr (0, 0)) <$> inds.

(** [arr[mask]]: the rows of an array where the mask holds. *)
Definition select (elems : list bool) (arr : list (R * R)) : list (R * R) :=
  snd <$> filter (fun p => fst p = true) (zip elems arr).

(** A tensor mesh of two cells along [x], and the tree mesh of the same
    two cells. *)
Definition two_cells : mesh := Mesh 2 (TensorMesh [0; 1; 3] [0; 2] [-4; 0]).

Definition two_cells_tree : mesh :=
  Mesh 2 (TreeMesh [(1 / 2, 1, -2); (2, 1, -2)] [(1, 2, 4); (2, 2, 4)]).

(** ** class Problem3D_Diff (lines 399-489)

    The matrices of the differential formulation.  The mesh gives the
    operators: [cellGrad] (kept as [_Div] by [__init__]), the face inner
    product and the cell volumes [vol]; [rho] is the mapped model. *)

(** [-A] on a sparse matrix. *)
Definition sp_neg (A : spmatrix) : spmatrix :=
  SpMatrix (nrows A) (ncols A) (fun i j => - entry A i j).

Module Problem3D_Diff.

Record t := mk {
  _Div : spmatrix;
  getFaceInnerProduct : spmatrix;
  vol : vec;
  rhoMap : vec -> vec;
  model : option vec;
  _Mfi : option spmatrix;
  _MfI : option spmatrix
}.

(** [makeMassMatrices(m)]. *)
Definition makeMassMatrices (m : vec) (self : t) : t :=
  let Mfi := getFaceInnerProduct self in
  mk (_Div self) (getFaceInnerProduct self) (vol self) (rhoMap self)
     (Some m) (Some Mfi)
     (Some (sdiag ((fun d => 1 / d) <$> sp_diagonal Mfi))).

(** [getRHS(m)]: the value and the instance, whose model is now [m]. *)
Definition getRHS (m : vec) (self : t) : res vec * t :=
  let Mc := sdiag (vol self) in
  let self' := mk (_Div self) (getFaceInnerProduct self) (vol self)
                 (rhoMap self) (Some m) (_Mfi self) (_MfI self) in
  (sp_matvec Mc (rhoMap self m), self').

(** [getA(m)]: [-self._Div.T * self.Mfi * self._Div], the sign on the
    first factor and the products from the left; [Mfi] is there once
    [makeMassMatrices] has run. *)
Definition getA (self : t) : res spmatrix :=
  match _Mfi self with
  | None =>
      Raise (Exception "'Problem3D_Diff' object has no attribute '_Mfi'")
  | Some Mfi =>
      match sp_mul (sp_neg (sp_T (_Div self))) Mfi with
      | Raise e => Raise e
      | Ok DtM => sp_mul DtM (_Div self)
      end
  end.

End Problem3D_Diff.

(** The quadratic form [v^T A v] of a square matrix. *)
Definition quad_form (A : spmatrix) (v : nat -> R) : R :=
  big_sum (nrows A) (fun i =>
    big_sum (ncols A) (fun j => v i * entry A i j * v j)).

(** A gradient on two cells with three faces and its face inner
    product. *)
Definition grad2 : spmatrix :=
  SpMatrix 3 2 (fun i j =>
    match i, j with
    | 0%nat, 0%nat => 1
    | 1%nat, 0%nat => -1
    | 1%nat, 1%nat => 1
    | 2%nat, 1%nat => -1
    | _, _ => 0
    end).

Definition diff_problem : Problem3D_Diff.t :=
  Problem3D_Diff.mk grad2 (sdiag [2; 1; 2]) [1; 1] IdentityMap None None None.
(** * Properties *)

(** ** Entries of the row *)

Lemma eps_pos : 0 < eps.
Proof. unfold eps. lra. Qed.

Lemma lookup_zeros (n j : nat) : (j < n)%nat -> zeros n !! j = Some 0.
Proof. intros Hj. unfold zeros. by apply lookup_replicate_2. Qed.

Lemma lookup_col (k j : nat) (arr : list (R * R)) (p : R * R) :
  arr !! j = Some p -> col k arr !! j = Some (pick k p).
Proof. intros H. unfold col. rewrite list_lookup_fmap, H. reflexivity. Qed.

Lemma lookup_arr_minus (arr : list (R * R)) (c : R) (j : nat) (p : R * R) :
  arr !! j = Some p -> arr_minus arr c !! j = Some (fst p - c, snd p - c).
Proof. intros H. unfold arr_minus. rewrite list_lookup_fmap, H. reflexivity. Qed.

Lemma lookup_minus_arr (arr : list (R * R)) (c : R) (j : nat) (p : R * R) :
  arr !! j = Some p -> minus_arr c arr !! j = Some (c - fst p, c - snd p).
Proof. intros H. unfold minus_arr. rewrite list_lookup_fmap, H. reflexivity. Qed.

(** Entry [j] of the vector subtracted for one corner. *)
Lemma corner_update_lookup (h : host) (self : Forward)
    (dx dy dz : list (R * R)) (aa bb cc j : nat) (px py pz : R * R) :
  dx !! j = Some px -> dy !! j = Some py -> dz !! j = Some pz ->
  corner_update h self dx dy dz aa bb cc !! j =
  Some (constants_G h * 1e+8 * (-1) ^ aa * (-1) ^ bb * (-1) ^ cc *
        corner_term (rxType self) (pick aa px) (pick bb py) (pick cc pz)).
Proof.
  intros Hx Hy Hz.
  pose proof (lookup_col aa j dx px Hx) as Hxa.
  pose proof (lookup_col bb j dy py Hy) as Hyb.
  pose proof (lookup_col cc j dz pz Hz) as Hzc.
  unfold corner_update, corner_term.
  repeat case_decide;
    unfold smul, vsub, vadd, vmul, vdiv, sadd, vlog, varctan, vsqrt, vsq;
    repeat (rewrite ?list_lookup_fmap, ?lookup_zip_with, ?Hxa, ?Hyb, ?Hzc;
            simpl);
    reflexivity.
Qed.

Lemma calcTrow_row_lookup (h : host) (self : Forward) (xyzLoc : receiver)
    (j : nat) (xn yn zn : R * R) :
  Xn self !! j = Some xn -> Yn self !! j = Some yn -> Zn self !! j = Some zn ->
  calcTrow_row h self xyzLoc !! j =
  Some (- (constants_G h * 1e+8) * signed_corner_sum (rxType self) xyzLoc xn yn zn).
Proof.
  intros Hx Hy Hz. destruct xyzLoc as [[x0 y0] z0].
  unfold calcTrow_row. cbn [foldl seq].
  pose proof (lookup_arr_minus _ x0 _ _ Hx) as Hdx.
  pose proof (lookup_arr_minus _ y0 _ _ Hy) as Hdy.
  pose proof (lookup_minus_arr _ z0 _ _ Hz) as Hdz.
  unfold vsub.
  repeat rewrite lookup_zip_with.
  rewrite (lookup_zeros _ j (lookup_lt_Some _ _ _ Hx)).
  rewrite !(corner_update_lookup h self _ _ _ _ _ _ j _ _ _ Hdx Hdy Hdz).
  cbn [mbind option_bind]. f_equal.
  unfold signed_corner_sum, sum01. cbn [pick fst snd Nat.add].
  ring.
Qed.


(** ** The worked cell *)

(** The vertical term of a corner whose distance [r] is known. *)
Lemma corner_term_z_eq (dx dy dz r u v q : R) :
  0 <= r -> r * r = dx ^ 2 + dy ^ 2 + dz ^ 2 ->
  u = dy + r + eps -> v = dx + r + eps -> q = dx * dy / (dz * r + eps) ->
  corner_term "z" dx dy dz = dx * ln u + dy * ln v - dz * atan q.
Proof.
  intros Hr Hrr -> -> ->. unfold corner_term.
  rewrite <- Hrr, sqrt_square by assumption.
  repeat case_decide; try discriminate. reflexivity.
Qed.

Lemma ln_pair_lt (a b c d : R) :
  0 < a -> 0 < b -> 0 < c -> 0 < d -> a * b < c * d ->
  ln a + ln b < ln c + ln d.
Proof.
  intros Ha Hb Hc Hd Hlt.
  rewrite <- !ln_mult by assumption.
  apply ln_increasing; [nra | assumption].
Qed.

(** The signed corner sum of the worked cell is negative, so its entry of
    the row, [- NewtG] times the sum, is positive. *)
Lemma cell_job_sum_neg :
  signed_corner_sum "z" (0, 0, 0) (-3, 3) (-4, 4) (-12, 0) < 0.
Proof.
  unfold signed_corner_sum, sum01. cbn [pick fst snd Nat.add].
  set (A := atan (12 / (156 + eps))).
  assert (HA : 0 < A).
  { unfold A. rewrite <- atan_0. apply atan_increasing.
    apply Rdiv_lt_0_compat; unfold eps; lra. }
  set (q0 := 12 / (156 + eps)) in *.
  rewrite (corner_term_z_eq (-3 - 0) (-4 - 0) (0 - -12) 13 (9 + eps) (10 + eps) q0),
          (corner_term_z_eq (-3 - 0) (-4 - 0) (0 - 0) 5 (1 + eps) (2 + eps) (((-3 - 0) * (-4 - 0)) / ((0 - 0) * 5 + eps))),
          (corner_term_z_eq (-3 - 0) (4 - 0) (0 - -12) 13 (17 + eps) (10 + eps) (- q0)),
          (corner_term_z_eq (-3 - 0) (4 - 0) (0 - 0) 5 (9 + eps) (2 + eps) (((-3 - 0) * (4 - 0)) / ((0 - 0) * 5 + eps))),
          (corner_term_z_eq (3 - 0) (-4 - 0) (0 - -12) 13 (9 + eps) (16 + eps) (- q0)),
          (corner_term_z_eq (3 - 0) (-4 - 0) (0 - 0) 5 (1 + eps) (8 + eps) (((3 - 0) * (-4 - 0)) / ((0 - 0) * 5 + eps))),
          (corner_term_z_eq (3 - 0) (4 - 0) (0 - -12) 13 (17 + eps) (16 + eps) q0),
          (corner_term_z_eq (3 - 0) (4 - 0) (0 - 0) 5 (9 + eps) (8 + eps) (((3 - 0) * (4 - 0)) / ((0 - 0) * 5 + eps)));
    try reflexivity; try lra; try (unfold q0, eps; lra).
  rewrite atan_opp. fold A.
  pose proof eps_pos as He.
  assert (H1 : ln (17 + eps) + ln (1 + eps) < ln (9 + eps) + ln (9 + eps))
    by (apply ln_pair_lt; nra).
  assert (H2 : ln (16 + eps) + ln (2 + eps) < ln (10 + eps) + ln (8 + eps))
    by (apply ln_pair_lt; nra).
  lra.
Qed.

(** ** The row kernel *)

(** Every logarithm of the kernel has a positive argument: the distance
    [r] to a corner is at least the size of each displacement. *)
Lemma log_argument_positive (dx dy dz : R) :
  let r := sqrt (dx ^ 2 + dy ^ 2 + dz ^ 2) in
  0 < dx + r + eps /\ 0 < dy + r + eps /\ 0 < dz + r + eps.
Proof.
  intros r.
  assert (Habs : forall d : R, d ^ 2 <= dx ^ 2 + dy ^ 2 + dz ^ 2 -> 0 < d + r + eps).
  { intros d Hd.
    assert (Hr : Rabs d <= r).
    { unfold r. rewrite <- (sqrt_Rsqr_abs d).
      apply sqrt_le_1_alt. unfold Rsqr. lra. }
    pose proof (Rle_abs (- d)) as Hle. rewrite Rabs_Ropp in Hle.
    pose proof eps_pos. lra. }
  pose proof (pow2_ge_0 dx). pose proof (pow2_ge_0 dy). pose proof (pow2_ge_0 dz).
  repeat split; apply Habs; lra.
Qed.

Lemma Ok_inj {A : Type} (a b : A) : Ok a = Ok b -> a = b.
Proof. congruence. Qed.

Lemma calcTrow_full_row (h : host) (self : Forward) (xyzLoc : receiver) :
  forwardOnly self = false ->
  calcTrow h self xyzLoc = Ok (calcTrow_row h self xyzLoc).
Proof. intros Hfo. unfold calcTrow. rewrite Hfo. reflexivity. Qed.

(** C4 (as amended): with forward-only mode off, the entry of the row for
    cell [j] is MINUS the conversion constant [constants.G * 1e+8] times
    the signed sum over the eight corners, corner [(a, b, c)] contributing
    its logarithm/arctangent term with sign [(-1)^(a+b+c)]; every
    logarithm argument and arctangent denominator carries [eps = 1e-8].
    The sign comes from [row -= ...]. *)
Theorem C4_row_entry (h : host) (self : Forward) (xyzLoc : receiver)
    (j : nat) (xn yn zn : R * R) :
  forwardOnly self = false ->
  Xn self !! j = Some xn -> Yn self !! j = Some yn -> Zn self !! j = Some zn ->
  exists row : vec,
    calcTrow h self xyzLoc = Ok row /\
    row !! j =
      Some (- (constants_G h * 1e+8) *
            signed_corner_sum (rxType self) xyzLoc xn yn zn).
Proof.
  intros Hfo Hx Hy Hz. exists (calcTrow_row h self xyzLoc). split.
  - by apply calcTrow_full_row.
  - by apply calcTrow_row_lookup.
Qed.

Lemma C4_row_entry_witness :
  exists row : vec,
    calcTrow host0 (cell_job None false None) (0, 0, 0) = Ok row /\
    row !! 0%nat =
      Some (- (constants_G host0 * 1e+8) *
            signed_corner_sum "z" (0, 0, 0) (-3, 3) (-4, 4) (-12, 0)).
Proof.
  apply (C4_row_entry host0 (cell_job None false None) (0, 0, 0) 0%nat
           (-3, 3) (-4, 4) (-12, 0)); reflexivity.
Defined.

(** C4 as the specification words it (PLUS the constant times the signed
    sum) fails on the worked cell: the entry is positive, the constant
    times the signed sum is negative. *)
Lemma C4_counterexample :
  ~ exists row : vec,
      calcTrow host0 (cell_job None false None) (0, 0, 0) = Ok row /\
      row !! 0%nat =
        Some (constants_G host0 * 1e+8 *
              signed_corner_sum "z" (0, 0, 0) (-3, 3) (-4, 4) (-12, 0)).
Proof.
  intros (row & Hrow & Hj).
  rewrite calcTrow_full_row in Hrow by reflexivity.
  apply Ok_inj in Hrow. subst row.
  rewrite (calcTrow_row_lookup host0 (cell_job None false None) (0, 0, 0)
             0%nat (-3, 3) (-4, 4) (-12, 0)) in Hj by reflexivity.
  apply (inj Some) in Hj. cbn [rxType cell_job constants_G host0] in Hj.
  pose proof cell_job_sum_neg as Hneg. nra.
Qed.




Lemma corner_update_other_component (h : host) (self : Forward)
    (dx dy dz : list (R * R)) (aa bb cc : nat) :
  rxType self <> "x"%string -> rxType self <> "y"%string ->
  corner_update h self dx dy dz aa bb cc =
  corner_update h (with_rxType "z" self) dx dy dz aa bb cc.
Proof.
  intros Hx Hy. unfold corner_update. cbn [rxType with_rxType].
  repeat case_decide; try congruence; reflexivity.
Qed.

(** C10: a field component other than ['x'] and ['y'], recognised or
    not, is computed as ['z']; nothing validates it and the kernel
    returns its row as for ['z']. *)
Theorem C10_other_component_is_z (h : host) (self : Forward)
    (xyzLoc : receiver) :
  rxType self <> "x"%string -> rxType self <> "y"%string ->
  calcTrow h self xyzLoc = calcTrow h (with_rxType "z" self) xyzLoc /\
  (forwardOnly self = false -> exists row, calcTrow h self xyzLoc = Ok row).
Proof.
  intros Hx Hy. split.
  - unfold calcTrow, calcTrow_row. destruct xyzLoc as [[x0 y0] z0].
    cbn [foldl seq Xn Yn Zn forwardOnly model with_rxType].
    rewrite !(corner_update_other_component h self) by assumption.
    reflexivity.
  - intros Hfo. eexists. by apply calcTrow_full_row.
Qed.

Lemma C10_other_component_is_z_witness :
  calcTrow host0 (with_rxType "zz" (cell_job None false None)) (0, 0, 0) =
  calcTrow host0
    (with_rxType "z" (with_rxType "zz" (cell_job None false None))) (0, 0, 0) /\
  exists row,
    calcTrow host0 (with_rxType "zz" (cell_job None false None)) (0, 0, 0)
    = Ok row.
Proof.
  destruct (C10_other_component_is_z host0
              (with_rxType "zz" (cell_job None false None)) (0, 0, 0))
    as [Hz Hrow]; [cbn; discriminate | cbn; discriminate |].
  split; [exact Hz | apply Hrow; reflexivity].
Defined.

(** ** The chunk planner *)

Section Planner.
Local Open Scope Z_scope.

Lemma ceil_div_ge_1 (a b : Z) : 1 <= a -> 1 <= b -> 1 <= ceil_div a b.
Proof.
  intros Ha Hb. unfold ceil_div.
  pose proof (Z.div_mod (- a) b ltac:(lia)) as Hdm.
  pose proof (Z.mod_pos_bound (- a) b ltac:(lia)) as Hm. nia.
Qed.

Lemma ceil_div_small (a b : Z) : 1 <= a -> a <= b -> ceil_div a b = 1.
Proof.
  intros Ha Hb. unfold ceil_div.
  pose proof (Z.div_mod (- a) b ltac:(lia)) as Hdm.
  pose proof (Z.mod_pos_bound (- a) b ltac:(lia)) as Hm. nia.
Qed.

Lemma int_div_bounds (a b : Z) :
  0 <= a -> 1 <= b -> 0 <= int_div a b <= ceil_div a b.
Proof.
  intros Ha Hb. unfold int_div, ceil_div.
  rewrite Z.quot_div_nonneg by lia.
  pose proof (Z.div_mod a b ltac:(lia)) as Hdm.
  pose proof (Z.mod_pos_bound a b ltac:(lia)) as Hm.
  pose proof (Z.div_mod (- a) b ltac:(lia)) as Hdm'.
  pose proof (Z.mod_pos_bound (- a) b ltac:(lia)) as Hm'. nia.
Qed.

Lemma int_div_ge_1 (a b : Z) : 1 <= b -> b <= a -> 1 <= int_div a b.
Proof.
  intros Hb Ha. unfold int_div.
  rewrite Z.quot_div_nonneg by lia.
  pose proof (Z.div_mod a b ltac:(lia)) as Hdm.
  pose proof (Z.mod_pos_bound a b ltac:(lia)) as Hm. nia.
Qed.

Lemma totRAM_mono (r c r' c' n : Z) :
  0 <= r <= r' -> 0 <= c <= c' -> 0 <= n ->
  (totRAM r c n <= totRAM r' c' n)%Q.
Proof.
  intros Hr Hc Hn. unfold totRAM.
  apply Qmult_le_compat_r; [| discriminate].
  rewrite <- Zle_Qle.
  assert (Hrc : r * c <= r' * c') by (apply Z.mul_le_mono_nonneg; lia).
  assert (0 <= r * c) by lia.
  apply Z.mul_le_mono_nonneg_r; [assumption |].
  apply Z.mul_le_mono_nonneg_r; [lia | assumption].
Qed.

Variables (nD nC n_cpu : Z) (maxRAM : Q).
Hypothesis HnD : 1 <= nD.
Hypothesis HnC : 1 <= nC.
Hypothesis Hcpu : 1 <= n_cpu.
Hypothesis Hbudget : (totRAM 1 1 n_cpu <= maxRAM)%Q.

(** Once [nChunks] has reached both dimensions the loop has ended; each
    iteration doubles [nChunks], so [fuel] iterations are enough as soon
    as [nChunks * 2 ^ fuel] reaches them. *)
Lemma plan_loop_ends (fuel : nat) :
  forall nChunks r c : Z,
    1 <= nChunks ->
    Z.max nD nC <= nChunks * 2 ^ Z.of_nat fuel ->
    0 <= r <= ceil_div nD nChunks ->
    0 <= c <= ceil_div nC nChunks ->
    exists r' c' : Z,
      plan_loop fuel nD nC n_cpu maxRAM nChunks r c = Some (r', c') /\
      (totRAM r' c' n_cpu <= maxRAM)%Q /\
      0 <= r' /\ 0 <= c' /\ (1 <= r -> 1 <= r') /\ (1 <= c -> 1 <= c').
Proof.
  induction fuel as [| fuel IH]; intros nChunks r c Hn Hmax Hr Hc.
  - cbn [plan_loop].
    assert (Hfit : (totRAM r c n_cpu <= maxRAM)%Q).
    { eapply Qle_trans; [| exact Hbudget].
      change (2 ^ Z.of_nat 0) with 1 in Hmax.
      rewrite ceil_div_small in Hr by lia.
      rewrite ceil_div_small in Hc by lia.
      apply totRAM_mono; lia. }
    rewrite (proj2 (Qle_bool_iff _ _) Hfit). exists r, c.
    repeat split; lia || assumption.
  - cbn [plan_loop].
    destruct (Qle_bool (totRAM r c n_cpu) maxRAM) eqn:Hfit.
    + apply Qle_bool_iff in Hfit. exists r, c. repeat split; lia || assumption.
    + destruct (IH (nChunks * 2) (ceil_div nD (nChunks * 2))
                  (ceil_div nC (nChunks * 2))) as (r' & c' & Hrun & Hle & Hr' & Hc' & Hr1 & Hc1).
      * lia.
      * rewrite Nat2Z.inj_succ, Z.pow_succ_r in Hmax by lia. lia.
      * pose proof (ceil_div_ge_1 nD (nChunks * 2)). lia.
      * pose proof (ceil_div_ge_1 nC (nChunks * 2)). lia.
      * exists r', c'. rewrite Hrun.
        pose proof (ceil_div_ge_1 nD (nChunks * 2)).
        pose proof (ceil_div_ge_1 nC (nChunks * 2)).
        repeat split; lia || assumption.
Qed.

Lemma plan_loop_S (fuel : nat) (nChunks r c : Z) :
  plan_loop (S fuel) nD nC n_cpu maxRAM nChunks r c =
  if Qle_bool (totRAM r c n_cpu) maxRAM then Some (r, c)
  else plan_loop fuel nD nC n_cpu maxRAM (nChunks * 2)
         (ceil_div nD (nChunks * 2)) (ceil_div nC (nChunks * 2)).
Proof. reflexivity. Qed.

Lemma plan_loop_more_fuel (fuel : nat) :
  forall (nChunks r c : Z) (plan : Z * Z),
    plan_loop fuel nD nC n_cpu maxRAM nChunks r c = Some plan ->
    plan_loop (S fuel) nD nC n_cpu maxRAM nChunks r c = Some plan.
Proof.
  induction fuel as [| fuel IH]; intros nChunks r c plan Hrun;
    rewrite plan_loop_S.
  - cbn [plan_loop] in Hrun.
    destruct (Qle_bool (totRAM r c n_cpu) maxRAM); [assumption | discriminate].
  - rewrite plan_loop_S in Hrun.
    destruct (Qle_bool (totRAM r c n_cpu) maxRAM); [assumption |].
    by apply IH.
Qed.

Lemma plan_loop_fuel_le (fuel fuel' : nat) (nChunks r c : Z) (plan : Z * Z) :
  (fuel <= fuel')%nat ->
  plan_loop fuel nD nC n_cpu maxRAM nChunks r c = Some plan ->
  plan_loop fuel' nD nC n_cpu maxRAM nChunks r c = Some plan.
Proof.
  induction 1 as [| k Hle IH]; [done |].
  intros Hrun. by apply plan_loop_more_fuel, IH.
Qed.

Lemma pow2_ge (k : Z) : 0 <= k -> k <= 2 ^ k.
Proof.
  intros Hk. pose proof (Z.pow_gt_lin_r 2 k ltac:(lia) Hk). lia.
Qed.

(** The planner on well-formed sizes, with a budget that one 1 x 1
    chunk per worker fits. *)
Lemma chunk_plan_ends :
  exists r c : Z,
    (forall fuel : nat,
        (Z.to_nat (Z.max nD nC) <= fuel)%nat ->
        chunk_plan fuel nD nC n_cpu maxRAM = Some (Ok (r, c))) /\
    (totRAM r c n_cpu <= maxRAM)%Q /\
    0 <= r /\ 0 <= c /\
    (n_cpu <= nD -> 1 <= r) /\ (n_cpu <= nC -> 1 <= c).
Proof.
  set (F := Z.to_nat (Z.max nD nC)).
  destruct (plan_loop_ends F n_cpu (int_div nD n_cpu) (int_div nC n_cpu))
    as (r & c & Hrun & Hle & Hr & Hc & Hr1 & Hc1).
  - assumption.
  - unfold F. rewrite Z2Nat.id by lia.
    pose proof (pow2_ge (Z.max nD nC) ltac:(lia)). nia.
  - apply int_div_bounds; lia.
  - apply int_div_bounds; lia.
  - exists r, c. repeat split; try assumption.
    + intros fuel Hfuel. unfold chunk_plan.
      case_decide; [lia |].
      by rewrite (plan_loop_fuel_le F fuel _ _ _ (r, c) Hfuel Hrun).
    + intros H. apply Hr1. by apply int_div_ge_1.
    + intros H. apply Hc1. by apply int_div_ge_1.
Qed.

End Planner.

(** C2 (as amended): for [nD, nC, n_cpu >= 1] and a budget that holds
    the estimate of one 1 x 1 chunk per worker ([8 * n_cpu * 1e-9 <=
    maxRAM]), the planning loop ends (every fuel from [max nD nC] on gives
    the same plan), raises nothing, and the planned chunk sizes have an
    estimate within the budget; they are at least 1 along an axis whose
    size is at least [n_cpu]. *)
Theorem C2_chunk_plan (nD nC n_cpu : Z) (maxRAM : Q) :
  (1 <= nD)%Z -> (1 <= nC)%Z -> (1 <= n_cpu)%Z ->
  (totRAM 1 1 n_cpu <= maxRAM)%Q ->
  exists r c : Z,
    (forall fuel : nat,
        (Z.to_nat (Z.max nD nC) <= fuel)%nat ->
        chunk_plan fuel nD nC n_cpu maxRAM = Some (Ok (r, c))) /\
    (totRAM r c n_cpu <= maxRAM)%Q /\
    ((n_cpu <= nD)%Z -> (1 <= r)%Z) /\ ((n_cpu <= nC)%Z -> (1 <= c)%Z).
Proof.
  intros HnD HnC Hcpu Hbudget.
  destruct (chunk_plan_ends nD nC n_cpu maxRAM HnD HnC Hcpu Hbudget)
    as (r & c & Hrun & Hle & _ & _ & Hr & Hc).
  exists r, c. repeat split; assumption.
Qed.

(** The specification's example: 1000 x 1000 on 4 workers with a budget
    below the estimate of the 250 x 250 start. *)
Lemma C2_chunk_plan_witness :
  exists r c : Z,
    (forall fuel : nat,
        (Z.to_nat (Z.max 1000 1000) <= fuel)%nat ->
        chunk_plan fuel 1000 1000 4 (1 # 1000) = Some (Ok (r, c))) /\
    (totRAM r c 4 <= 1 # 1000)%Q /\
    ((4 <= 1000)%Z -> (1 <= r)%Z) /\ ((4 <= 1000)%Z -> (1 <= c)%Z).
Proof.
  apply (C2_chunk_plan 1000 1000 4 (1 # 1000)); try lia.
  vm_compute. discriminate.
Defined.

Example chunk_plan_1000 :
  chunk_plan 3 1000 1000 4 (1 # 1000) = Some (Ok (125, 125)%Z).
Proof. vm_compute. reflexivity. Qed.

(** Below the estimate of a 1 x 1 chunk the loop never ends: the chunk
    sizes stay at 1. *)
Lemma plan_loop_diverges (fuel : nat) :
  forall nChunks : Z,
    (1 <= nChunks)%Z ->
    plan_loop fuel 1 1 1 (1 # 1000000000) nChunks 1 1 = None.
Proof.
  induction fuel as [| fuel IH]; intros nChunks Hn; [reflexivity |].
  rewrite plan_loop_S.
  change (Qle_bool (totRAM 1 1 1) (1 # 1000000000)) with false.
  cbv iota. rewrite !ceil_div_small by lia. apply IH. lia.
Qed.

(** C2 as stated fails twice.  One receiver and one cell on four workers
    with the default budget: the first division truncates and the plan is
    0 x 0.  One receiver, one cell, one worker and the positive budget
    [1e-9]: no number of iterations ends the loop. *)
Lemma C2_counterexample :
  (~ exists (fuel : nat) (r c : Z),
       chunk_plan fuel 1 1 4 8 = Some (Ok (r, c)) /\
       (1 <= r)%Z /\ (1 <= c)%Z /\ (totRAM r c 4 <= 8)%Q) /\
  (~ exists (fuel : nat) (r c : Z),
       chunk_plan fuel 1 1 1 (1 # 1000000000) = Some (Ok (r, c)) /\
       (1 <= r)%Z /\ (1 <= c)%Z /\ (totRAM r c 1 <= 1 # 1000000000)%Q).
Proof.
  split.
  - intros (fuel & r & c & Hrun & Hr & _).
    assert (Hplan : chunk_plan fuel 1 1 4 8 = Some (Ok (0, 0)%Z))
      by (destruct fuel; reflexivity).
    rewrite Hplan in Hrun. injection Hrun as <- <-. lia.
  - intros (fuel & r & c & Hrun & _).
    unfold chunk_plan in Hrun. case_decide; [lia |].
    change (int_div 1 1) with 1%Z in Hrun.
    rewrite plan_loop_diverges in Hrun by lia. discriminate.
Qed.

(** ** Assembly of the matrix *)

Lemma calcTrow_row_backend (h : host) (p : option string) (self : Forward)
    (xyzLoc : receiver) :
  calcTrow_row h (with_backend p self) xyzLoc = calcTrow_row h self xyzLoc.
Proof. reflexivity. Qed.

Lemma calcTrow_backend (h : host) (p : option string) (self : Forward)
    (xyzLoc : receiver) :
  calcTrow h (with_backend p self) xyzLoc = calcTrow h self xyzLoc.
Proof. reflexivity. Qed.

Lemma eval_rows_backend (h : host) (p : option string) (self : Forward)
    (rx : list receiver) :
  forall w, eval_rows h (with_backend p self) rx w = eval_rows h self rx w.
Proof.
  induction rx as [| xyzLoc rest IH]; intros w; [reflexivity |].
  cbn [eval_rows]. rewrite calcTrow_backend.
  destruct (calcTrow h self xyzLoc); [| reflexivity].
  by rewrite IH.
Qed.

(** With forward-only mode off every call of the kernel returns its row:
    the rows come out in receiver order and each receiver is logged
    once. *)
Lemma eval_rows_full (h : host) (self : Forward) (rx : list receiver) :
  forwardOnly self = false ->
  forall w,
    eval_rows h self rx w =
    (Ok (calcTrow_row h self <$> rx),
     World (files w) (kernel_calls w ++ rx)).
Proof.
  intros Hfo. induction rx as [| xyzLoc rest IH]; intros w.
  - cbn [eval_rows fmap list_fmap]. rewrite app_nil_r. by destruct w.
  - cbn [eval_rows]. rewrite calcTrow_full_row by assumption.
    rewrite IH. cbn [log_call files kernel_calls fmap list_fmap].
    by rewrite <- app_assoc.
Qed.

Lemma vstack_nonempty {A : Type} (rows : list A) :
  rows <> [] -> vstack rows = Ok rows.
Proof. by destruct rows. Qed.

Lemma stack_rows_full (h : host) (self : Forward) (w : world) :
  forwardOnly self = false -> rxLoc self <> [] ->
  stack_rows h self w =
  (Ok (InMemory (calcTrow_row h self <$> rxLoc self)),
   World (files w) (kernel_calls w ++ rxLoc self)).
Proof.
  intros Hfo Hrx. unfold stack_rows. rewrite eval_rows_full by assumption.
  rewrite vstack_nonempty; [reflexivity |].
  by destruct (rxLoc self).
Qed.

(** C1 (as amended): with forward-only mode off, at least one receiver,
    at least one worker, a chunk plan that dask accepts, and a store at
    [Jpath] that, IF THERE IS ONE, holds the rows of this very problem,
    the dask, multiprocessing and sequential backends all return the
    matrix whose rows are the kernel's rows in receiver order. *)
Theorem C1_backends_agree (fuel : nat) (h : host) (self : Forward)
    (w : world) (plan : Z * Z) (p : option string) :
  forwardOnly self = false ->
  rxLoc self <> [] ->
  (forall stored : matrix,
      files w !! Jpath self = Some stored ->
      stored = calcTrow_row h self <$> rxLoc self) ->
  (1 <= default (cpu_count h) (n_cpu self))%Z ->
  chunk_plan fuel (Z.of_nat (length (rxLoc self)))
    (Z.of_nat (length (Xn self))) (default (cpu_count h) (n_cpu self))
    (maxRAM self) = Some (Ok plan) ->
  dask_rechunk h plan (length (rxLoc self), length (Xn self)) = Ok tt ->
  p ∈ [Some "dask"; Some "multiprocessing"; None]%string ->
  exists (G : array) (w' : world),
    calculate fuel h (with_backend p self) w = Some (Ok G, w') /\
    contents w' G = Some (calcTrow_row h self <$> rxLoc self).
Proof.
  intros Hfo Hrx Hfile Hcpu Hplan Hchunk Hp.
  unfold calculate. cbn [rxLoc Xn n_cpu maxRAM with_backend].
  rewrite Hplan.
  apply elem_of_cons in Hp as [-> | Hp];
    [| apply elem_of_cons in Hp as [-> | Hp];
       [| apply list_elem_of_singleton in Hp as ->]].
  - (* dask *)
    unfold assemble. cbn [parallelized with_backend truthy default].
    cbn [String.eqb Ascii.eqb Bool.eqb negb].
    rewrite bool_decide_eq_true_2 by (rewrite !elem_of_cons; tauto).
    cbn [negb].
    rewrite bool_decide_eq_true_2 by reflexivity.
    cbn [Jpath rxLoc Xn storeG with_backend].
    destruct (files w !! Jpath self) as [stored |] eqn:Hstored.
    + eexists _, _. split; [reflexivity |].
      cbn [contents]. rewrite Hstored. f_equal. by apply Hfile.
    + rewrite vstack_nonempty by assumption.
      rewrite Hchunk.
      rewrite eval_rows_backend, eval_rows_full by assumption.
      destruct (storeG self).
      * eexists _, _. split; [reflexivity |].
        cbn [contents to_zarr files]. by rewrite lookup_insert_eq.
      * eexists _, _. split; reflexivity.
  - (* multiprocessing *)
    unfold assemble. cbn [parallelized with_backend truthy default].
    cbn [String.eqb Ascii.eqb Bool.eqb negb].
    rewrite bool_decide_eq_true_2 by (rewrite !elem_of_cons; tauto).
    cbn [negb].
    rewrite bool_decide_eq_false_2 by discriminate.
    rewrite bool_decide_eq_false_2 by lia.
    rewrite stack_rows_full by assumption.
    eexists _, _. split; reflexivity.
  - (* sequential *)
    unfold assemble. cbn [parallelized with_backend truthy].
    rewrite stack_rows_full by assumption.
    eexists _, _. split; reflexivity.
Qed.

Lemma C1_backends_agree_witness :
  exists (G : array) (w' : world),
    calculate 0 host0
      (with_backend (Some "dask"%string) (cell_job None false None)) world0
    = Some (Ok G, w') /\
    contents w' G =
      Some (calcTrow_row host0 (cell_job None false None) <$>
            rxLoc (cell_job None false None)).
Proof.
  apply (C1_backends_agree 0 host0 (cell_job None false None) world0
           (1, 1)%Z (Some "dask"%string)).
  - reflexivity.
  - discriminate.
  - intros stored Hstored. cbn in Hstored. by rewrite lookup_empty in Hstored.
  - cbn. lia.
  - vm_compute. reflexivity.
  - reflexivity.
  - rewrite !elem_of_cons. tauto.
Defined.

Lemma cell_job_entry_pos :
  calcTrow_row host0 (cell_job None false None) (0, 0, 0) <> [0].
Proof.
  intros Hrow.
  pose proof (calcTrow_row_lookup host0 (cell_job None false None) (0, 0, 0)
                0%nat (-3, 3) (-4, 4) (-12, 0) eq_refl eq_refl eq_refl) as Hj.
  rewrite Hrow in Hj. apply (inj Some) in Hj.
  cbn [rxType cell_job constants_G host0] in Hj.
  pose proof cell_job_sum_neg as Hneg. nra.
Qed.

Lemma cell_job_row :
  calcTrow_row host0 (cell_job None false None) (0, 0, 0) =
  [- (constants_G host0 * 1e+8) *
   signed_corner_sum "z" (0, 0, 0) (-3, 3) (-4, 4) (-12, 0)].
Proof.
  pose proof (calcTrow_row_lookup host0 (cell_job None false None) (0, 0, 0)
                0%nat (-3, 3) (-4, 4) (-12, 0) eq_refl eq_refl eq_refl) as Hj.
  assert (Hlen : length (calcTrow_row host0 (cell_job None false None)
                           (0, 0, 0)) = 1%nat) by reflexivity.
  destruct (calcTrow_row host0 (cell_job None false None) (0, 0, 0))
    as [| x [| y rest]]; try discriminate.
  assert (Hx : [x] !! 0%nat = Some x) by reflexivity.
  cbn [rxType cell_job] in Hj. congruence.
Qed.

(** C1 as stated fails when a store already exists at [Jpath]: the dask
    backend returns the stored array and computes nothing, the
    sequential backend computes the row. *)
Lemma C1_counterexample :
  exists (Gd Gs : array) (wd ws : world) (Md Ms : matrix),
    calculate 0 host0 (cell_job (Some "dask"%string) false None) world_stale
    = Some (Ok Gd, wd) /\
    calculate 0 host0 (cell_job None false None) world_stale
    = Some (Ok Gs, ws) /\
    contents wd Gd = Some Md /\ contents ws Gs = Some Ms /\
    kernel_calls wd = [] /\
    Md <> Ms.
Proof.
  exists (FromZarr "./sensitivity.zarr"), 
    (InMemory (calcTrow_row host0 (cell_job None false None) <$> [(0, 0, 0)])),
    world_stale, (World (files world_stale) [(0, 0, 0)]),
    [[0]], (calcTrow_row host0 (cell_job None false None) <$> [(0, 0, 0)]).
  split; [| split; [| split; [| split; [| split]]]].
  - unfold calculate.
    change (chunk_plan _ _ _ _ _) with (Some (Ok (1, 1)%Z)).
    unfold assemble. cbn [parallelized cell_job truthy default].
    cbn [String.eqb Ascii.eqb Bool.eqb negb].
    rewrite bool_decide_eq_true_2 by (rewrite !elem_of_cons; tauto).
    cbn [negb].
    rewrite bool_decide_eq_true_2 by reflexivity.
    cbn [Jpath cell_job world_stale files].
    by rewrite lookup_singleton_eq.
  - unfold calculate.
    change (chunk_plan _ _ _ _ _) with (Some (Ok (1, 1)%Z)).
    unfold assemble. cbn [parallelized cell_job truthy].
    rewrite stack_rows_full by (reflexivity || discriminate).
    reflexivity.
  - cbn [contents world_stale files]. by rewrite lookup_singleton_eq.
  - reflexivity.
  - reflexivity.
  - cbn [fmap list_fmap]. intros Heq.
    apply cell_job_entry_pos. congruence.
Qed.





(** C9 (as amended): a non-empty backend identifier other than ['dask']
    and ['multiprocessing'] makes the assembly fail, once the chunk plan
    is computed, with the assertion whose message lists the allowed
    values and ends with the value provided; the world is untouched, so
    no row is computed. *)
Theorem C9_bad_backend (fuel : nat) (h : host) (self : Forward)
    (w : world) (p : string) (plan : Z * Z) :
  parallelized self = Some p ->
  p <> EmptyString -> p <> "dask"%string -> p <> "multiprocessing"%string ->
  chunk_plan fuel (Z.of_nat (length (rxLoc self)))
    (Z.of_nat (length (Xn self))) (default (cpu_count h) (n_cpu self))
    (maxRAM self) = Some (Ok plan) ->
  calculate fuel h self w =
  Some (Raise (AssertionError
                 ("'parallelization' must be 'dask', 'multiprocessing' or None" ++
                  "Value provided -> " ++ p)), w).
Proof.
  intros Hp Hne Hd Hm Hplan. unfold calculate. rewrite Hplan.
  unfold assemble. rewrite Hp. cbn [truthy default].
  rewrite (proj2 (String.eqb_neq p EmptyString) Hne). cbn [negb].
  rewrite bool_decide_eq_false_2; [reflexivity |].
  rewrite !elem_of_cons, elem_of_nil. tauto.
Qed.

Lemma C9_bad_backend_witness :
  calculate 0 host0 (cell_job (Some "threads"%string) false None) world0 =
  Some (Raise (AssertionError
                 ("'parallelization' must be 'dask', 'multiprocessing' or None" ++
                  "Value provided -> " ++ "threads")), world0).
Proof.
  apply (C9_bad_backend 0 host0 (cell_job (Some "threads"%string) false None)
           world0 "threads" (1, 1)%Z); try discriminate; reflexivity.
Defined.

(** C9 as stated fails for the empty string: it is not one of the
    allowed identifiers, yet it is false as a condition, and the
    sequential backend runs. *)
Lemma C9_counterexample :
  (Some EmptyString ∉ [Some "dask"; Some "multiprocessing"; None]%string) /\
  exists G : matrix,
    calculate 0 host0 (cell_job (Some EmptyString) false None) world0 =
    Some (Ok (InMemory G), World ∅ [(0, 0, 0)]).
Proof.
  split.
  { rewrite !elem_of_cons, elem_of_nil. intros [H | [H | [H | []]]]; discriminate. }
  eexists. unfold calculate.
  change (chunk_plan _ _ _ _ _) with (Some (Ok (1, 1)%Z)).
  unfold assemble. cbn [parallelized cell_job truthy String.eqb negb].
  rewrite stack_rows_full by (reflexivity || discriminate).
  reflexivity.
Qed.

(** ** Forward-only rows *)

Lemma length_corner_update (h : host) (self : Forward)
    (dx dy dz : list (R * R)) (aa bb cc : nat) (n : nat) :
  length dx = n -> length dy = n -> length dz = n ->
  length (corner_update h self dx dy dz aa bb cc) = n.
Proof.
  intros Hx Hy Hz. unfold corner_update.
  repeat case_decide;
    unfold smul, vsub, vadd, vmul, vdiv, sadd, vlog, varctan, vsqrt, vsq, col;
    repeat rewrite ?length_fmap, ?length_zip_with; lia.
Qed.

Lemma length_calcTrow_row (h : host) (self : Forward) (xyzLoc : receiver) :
  length (Yn self) = length (Xn self) ->
  length (Zn self) = length (Xn self) ->
  length (calcTrow_row h self xyzLoc) = length (Xn self).
Proof.
  intros Hy Hz. destruct xyzLoc as [[x0 y0] z0].
  unfold calcTrow_row. cbn [foldl seq]. unfold vsub.
  repeat rewrite length_zip_with.
  rewrite !(length_corner_update h self _ _ _ _ _ _ (length (Xn self)));
    unfold arr_minus, minus_arr; rewrite ?length_fmap; try assumption;
    try reflexivity.
  unfold zeros. rewrite length_replicate. lia.
Qed.

(** In forward-only mode each call of the kernel returns the product of
    its row with the model it was given. *)
Lemma eval_rows_forward (h : host) (self : Forward) (m : vec)
    (rx : list receiver) :
  forwardOnly self = true -> model self = Some m ->
  length (Yn self) = length (Xn self) ->
  length (Zn self) = length (Xn self) ->
  length m = length (Xn self) ->
  forall w,
    eval_rows h self rx w =
    (Ok ((fun xyzLoc => [inner (calcTrow_row h self xyzLoc) m]) <$> rx),
     World (files w) (kernel_calls w ++ rx)).
Proof.
  intros Hfo Hm Hy Hz Hlen.
  induction rx as [| xyzLoc rest IH]; intros w.
  - cbn [eval_rows fmap list_fmap]. rewrite app_nil_r. by destruct w.
  - cbn [eval_rows]. unfold calcTrow. rewrite Hfo, Hm. unfold np_dot.
    rewrite decide_True by (rewrite length_calcTrow_row; congruence).
    rewrite IH. cbn [log_call files kernel_calls fmap list_fmap].
    by rewrite <- app_assoc.
Qed.

Lemma transpose_column {A : Type} (f : A -> R) (l : list A) :
  l <> [] -> transpose ((fun x => [f x]) <$> l) = [f <$> l].
Proof.
  induction l as [| a l IH]; intros Hl; [done |].
  destruct l as [| b l]; [reflexivity |].
  change (transpose ((fun x => [f x]) <$> a :: b :: l))
    with (zip_with cons [f a] (transpose ((fun x => [f x]) <$> b :: l))).
  by rewrite IH.
Qed.

Lemma mkvc_column {A : Type} (f : A -> R) (l : list A) :
  mkvc ((fun x => [f x]) <$> l) = f <$> l.
Proof.
  unfold mkvc. destruct l as [| a l]; [reflexivity |].
  rewrite transpose_column by discriminate.
  cbn [concat]. by rewrite app_nil_r.
Qed.

(** The sequential backend, in forward-only mode and with the full
    rows. *)
Lemma calculate_sequential_forward (fuel : nat) (h : host) (self : Forward)
    (w : world) (m : vec) (plan : Z * Z) :
  forwardOnly self = true -> parallelized self = None ->
  model self = Some m -> rxLoc self <> [] ->
  length (Yn self) = length (Xn self) ->
  length (Zn self) = length (Xn self) ->
  length m = length (Xn self) ->
  chunk_plan fuel (Z.of_nat (length (rxLoc self)))
    (Z.of_nat (length (Xn self))) (default (cpu_count h) (n_cpu self))
    (maxRAM self) = Some (Ok plan) ->
  calculate fuel h self w =
  Some (Ok (InMemory ((fun xyzLoc => [inner (calcTrow_row h self xyzLoc) m])
                        <$> rxLoc self)),
        World (files w) (kernel_calls w ++ rxLoc self)).
Proof.
  intros Hfo Hp Hm Hrx Hy Hz Hlen Hplan.
  unfold calculate. rewrite Hplan. unfold assemble. rewrite Hp.
  cbn [truthy]. unfold stack_rows.
  rewrite (eval_rows_forward h self m) by assumption.
  rewrite vstack_nonempty; [reflexivity |].
  by destruct (rxLoc self).
Qed.

Lemma calculate_sequential_full (fuel : nat) (h : host) (self : Forward)
    (w : world) (plan : Z * Z) :
  forwardOnly self = false -> parallelized self = None ->
  rxLoc self <> [] ->
  chunk_plan fuel (Z.of_nat (length (rxLoc self)))
    (Z.of_nat (length (Xn self))) (default (cpu_count h) (n_cpu self))
    (maxRAM self) = Some (Ok plan) ->
  calculate fuel h self w =
  Some (Ok (InMemory (calcTrow_row h self <$> rxLoc self)),
        World (files w) (kernel_calls w ++ rxLoc self)).
Proof.
  intros Hfo Hp Hrx Hplan.
  unfold calculate. rewrite Hplan. unfold assemble. rewrite Hp.
  cbn [truthy]. by rewrite stack_rows_full.
Qed.

Lemma mat_vec_rows {A : Type} (row : A -> vec) (l : list A) (m : vec) :
  (forall x, length (row x) = length m) ->
  mat_vec (row <$> l) m = Ok ((fun x => inner (row x) m) <$> l).
Proof.
  intros Hlen. unfold mat_vec.
  assert (Hall : forallb (fun r => Nat.eqb (length r) (length m)) (row <$> l)
                 = true).
  { induction l as [| a l IH]; [reflexivity |].
    cbn [fmap list_fmap forallb]. rewrite Hlen, Nat.eqb_refl. exact IH. }
  rewrite Hall. f_equal. by rewrite <- list_fmap_compose.
Qed.

(** ** Sums and sparse products *)

Lemma foldr_sum_ext (l : list nat) (f g : nat -> R) :
  (forall k, k ∈ l -> f k = g k) ->
  foldr (fun k acc => f k + acc) 0 l = foldr (fun k acc => g k + acc) 0 l.
Proof.
  induction l as [| k l IH]; intros Hfg; [reflexivity |].
  cbn [foldr]. rewrite Hfg by apply list_elem_of_here.
  rewrite IH; [reflexivity |].
  intros k' Hk'. apply Hfg. by apply list_elem_of_further.
Qed.

Lemma foldr_sum_zero (l : list nat) (f : nat -> R) :
  (forall k, k ∈ l -> f k = 0) ->
  foldr (fun k acc => f k + acc) 0 l = 0.
Proof.
  induction l as [| k l IH]; intros Hf; [reflexivity |].
  cbn [foldr]. rewrite Hf by apply list_elem_of_here.
  rewrite IH; [lra |].
  intros k' Hk'. apply Hf. by apply list_elem_of_further.
Qed.

(** A sum whose terms vanish except at [i]. *)
Lemma foldr_sum_single (l : list nat) (f : nat -> R) (i : nat) :
  NoDup l -> i ∈ l -> (forall k, k ∈ l -> k <> i -> f k = 0) ->
  foldr (fun k acc => f k + acc) 0 l = f i.
Proof.
  induction l as [| k l IH]; intros Hnd Hi Hf.
  - by apply elem_of_nil in Hi.
  - apply NoDup_cons in Hnd as [Hk Hnd]. cbn [foldr].
    destruct (decide (k = i)) as [-> | Hne].
    + rewrite foldr_sum_zero; [lra |].
      intros k' Hk'. apply Hf; [by apply list_elem_of_further |].
      intros ->. contradiction.
    + rewrite (Hf k) by (apply list_elem_of_here || assumption).
      rewrite IH; [lra | assumption | |].
      * apply elem_of_cons in Hi as [-> | Hi]; [congruence | assumption].
      * intros k' Hk'. apply Hf. by apply list_elem_of_further.
Qed.

Lemma big_sum_ext (n : nat) (f g : nat -> R) :
  (forall k, (k < n)%nat -> f k = g k) -> big_sum n f = big_sum n g.
Proof.
  intros Hfg. apply foldr_sum_ext. intros k Hk. apply Hfg.
  apply elem_of_seq in Hk. lia.
Qed.

Lemma big_sum_single (n : nat) (f : nat -> R) (i : nat) :
  (i < n)%nat -> (forall k, (k < n)%nat -> k <> i -> f k = 0) ->
  big_sum n f = f i.
Proof.
  intros Hi Hf. apply foldr_sum_single.
  - apply NoDup_seq.
  - apply elem_of_seq. lia.
  - intros k Hk. apply Hf. apply elem_of_seq in Hk. lia.
Qed.

Lemma nth_vsqrt (c : vec) (i : nat) : nth i (vsqrt c) 0 = sqrt (nth i c 0).
Proof.
  unfold vsqrt. rewrite <- sqrt_0 at 1. apply (map_nth sqrt).
Qed.

Lemma length_vsqrt (c : vec) : length (vsqrt c) = length c.
Proof. apply length_fmap. Qed.

(** [sdiag(v) * D] scales row [i] of [D] by [v[i]]. *)
Lemma sdiag_mul_entry (v : vec) (D : spmatrix) (P : spmatrix) (i j : nat) :
  sp_mul (sdiag v) D = Ok P -> (i < length v)%nat ->
  entry P i j = nth i v 0 * entry D i j.
Proof.
  unfold sp_mul. case_decide; [| discriminate]. intros [= <-] Hi.
  cbn [entry ncols nrows sdiag].
  rewrite (big_sum_single _ _ i); [| assumption |].
  - by rewrite decide_True.
  - intros k _ Hk. rewrite decide_False by congruence. lra.
Qed.

(** [D^T * sdiag(c)] scales column [k] of [D^T] by [c[k]]. *)
Lemma mul_sdiag_entry (D : spmatrix) (c : vec) (P : spmatrix) (j k : nat) :
  sp_mul (sp_T D) (sdiag c) = Ok P -> (k < length c)%nat ->
  entry P j k = entry D k j * nth k c 0.
Proof.
  unfold sp_mul. case_decide as Hdim; [| discriminate]. intros [= <-] Hk.
  cbn [entry ncols nrows sdiag sp_T] in *.
  rewrite (big_sum_single _ _ k); [| lia |].
  - by rewrite decide_True.
  - intros i _ Hi. rewrite decide_False by congruence. lra.
Qed.

(** The computation of [getJtJdiag] on a vector [c] of non-negative
    entries is the specification's [diag(D^T * diag(c) * D)]. *)
Lemma JtJdiag_code_is_spec (D : spmatrix) (c : vec) :
  Forall (fun x => 0 <= x) c ->
  match sp_mul (sdiag (vsqrt c)) D with
  | Ok prod => Ok (sp_sum_axis0 (sp_power2 prod))
  | Raise e => Raise e
  end = JtJdiag_spec D c.
Proof.
  intros Hc. unfold JtJdiag_spec.
  destruct (sp_mul (sdiag (vsqrt c)) D) as [P | e] eqn:HP;
    destruct (sp_mul (sp_T D) (sdiag c)) as [DtC | e'] eqn:HDtC.
  - assert (Hdim : length c = nrows D).
    { unfold sp_mul in HP. case_decide as Hd; [| discriminate].
      cbn [ncols sdiag] in Hd. by rewrite length_vsqrt in Hd. }
    assert (HnP : nrows P = length c /\ ncols P = ncols D).
    { unfold sp_mul in HP. case_decide; [| discriminate].
      injection HP as <-. cbn [nrows ncols sdiag]. by rewrite length_vsqrt. }
    assert (HnQ : nrows DtC = ncols D /\ ncols DtC = length c).
    { unfold sp_mul in HDtC. case_decide; [| discriminate].
      by injection HDtC as <-. }
    destruct HnP as [HrP HcP], HnQ as [HrQ HcQ].
    unfold sp_mul at 1. rewrite decide_True by congruence.
    f_equal. unfold sp_sum_axis0, sp_diagonal.
    cbn [nrows ncols entry sp_power2].
    rewrite HrP, HcP, HrQ, HcQ, Nat.min_id.
    apply list_fmap_ext. intros _ j _.
    apply big_sum_ext. intros i Hi.
    rewrite (sdiag_mul_entry _ _ _ i j HP) by (by rewrite length_vsqrt).
    rewrite (mul_sdiag_entry _ _ _ j i HDtC) by assumption.
    rewrite nth_vsqrt.
    assert (Hci : 0 <= nth i c 0).
    { rewrite Forall_forall in Hc. apply Hc, list_elem_of_In, nth_In. lia. }
    rewrite Rpow_mult_distr, pow2_sqrt by assumption. ring.
  - exfalso. unfold sp_mul in HP, HDtC.
    repeat case_decide; try discriminate.
    cbn [nrows ncols sdiag sp_T] in *. rewrite length_vsqrt in *. congruence.
  - exfalso. unfold sp_mul in HP, HDtC.
    repeat case_decide; try discriminate.
    cbn [nrows ncols sdiag sp_T] in *. rewrite length_vsqrt in *. congruence.
  - unfold sp_mul in HP, HDtC.
    repeat case_decide; try discriminate. congruence.
Qed.

Lemma vadd_nonneg (u v : vec) :
  Forall (fun x => 0 <= x) u -> Forall (fun x => 0 <= x) v ->
  Forall (fun x => 0 <= x) (vadd u v).
Proof.
  intros Hu. revert v. induction Hu as [| x u Hx Hu IH]; intros v Hv.
  - constructor.
  - destruct Hv as [| y v Hy Hv]; [constructor |].
    cbn. constructor; [lra | by apply IH].
Qed.

Lemma vsq_nonneg (u : vec) : Forall (fun x => 0 <= x) (vsq u).
Proof.
  unfold vsq. apply Forall_fmap, Forall_true. intros x. cbn.
  apply pow2_ge_0.
Qed.

Lemma colSumSquares_nonneg (G : matrix) :
  Forall (fun x => 0 <= x) (colSumSquares G).
Proof.
  unfold colSumSquares, sum_axis0. destruct G as [| r rs]; [constructor |].
  cbn [fmap list_fmap].
  generalize (vsq_nonneg r). generalize (vsq r). clear r.
  induction rs as [| r rs IH]; intros acc Hacc; [assumption |].
  cbn [fmap list_fmap foldl]. apply IH, vadd_nonneg; [assumption |].
  apply vsq_nonneg.
Qed.

Lemma lookup_nth (l : vec) (j : nat) :
  (j < length l)%nat -> l !! j = Some (nth j l 0).
Proof.
  intros Hj. destruct (nth_lookup_or_length l j 0); [assumption | lia].
Qed.

Lemma foldl_vadd_lookup (rs : matrix) :
  forall (acc : vec) (j : nat) (a : R),
    Forall (fun r => length r = length acc) rs ->
    acc !! j = Some a ->
    foldl vadd acc rs !! j =
    Some (a + foldr Rplus 0 ((fun r => nth j r 0) <$> rs)).
Proof.
  induction rs as [| r rs IH]; intros acc j a Hlen Hj.
  - cbn [foldl fmap list_fmap foldr]. rewrite Hj. f_equal. lra.
  - apply Forall_cons in Hlen as [Hr Hrs].
    cbn [foldl fmap list_fmap foldr].
    assert (Hjr : r !! j = Some (nth j r 0)).
    { apply lookup_nth. rewrite Hr. by eapply lookup_lt_Some. }
    rewrite (IH (vadd acc r) j (a + nth j r 0)).
    + f_equal. lra.
    + unfold vadd. rewrite length_zip_with, Hr, Nat.min_id.
      exact Hrs.
    + unfold vadd. rewrite lookup_zip_with, Hj, Hjr. reflexivity.
Qed.

(** Entry [j] of [da.sum(G**2., 0)] is the sum of the squares of column
    [j], for a matrix with at least one row and rows of one length. *)
Lemma colSumSquares_lookup (G : matrix) (n j : nat) :
  G <> [] -> Forall (fun r => length r = n) G -> (j < n)%nat ->
  colSumSquares G !! j = Some (column_sum_of_squares G j).
Proof.
  intros HG Hlen Hj. destruct G as [| r rs]; [done |].
  apply Forall_cons in Hlen as [Hr Hrs].
  unfold colSumSquares, sum_axis0, column_sum_of_squares.
  cbn [fmap list_fmap foldr].
  assert (Hsq : forall u : vec, nth j (vsq u) 0 = nth j u 0 ^ 2).
  { intros u. unfold vsq. replace 0 with (0 ^ 2) at 1 by ring.
    apply (map_nth (fun x => x ^ 2)). }
  rewrite (foldl_vadd_lookup _ _ j (nth j r 0 ^ 2)).
  - f_equal. f_equal. f_equal.
    rewrite <- list_fmap_compose. apply list_fmap_ext.
    intros _ u _. cbn. apply Hsq.
  - apply Forall_fmap. eapply Forall_impl; [exact Hrs |].
    intros u Hu. cbn. unfold vsq. rewrite !length_fmap. congruence.
  - rewrite <- Hsq. apply lookup_nth.
    unfold vsq. rewrite length_fmap. lia.
Qed.

(** ** The facade *)

Section Facade.
Import GravityIntegral.

Lemma Intrgl_Fwr_Op_keeps_state (fuel : nat) (h : host) (self self' : t)
    (w w' : world) (r : res array) :
  Intrgl_Fwr_Op fuel h None self w = Some (r, self', w') -> self' = self.
Proof.
  unfold Intrgl_Fwr_Op, bind, ret, get, raise.
  destruct (survey self); [| by intros [= _ <- _]].
  destruct (calculate _ _ _ _) as [[r' w''] |]; [| discriminate].
  by intros [= _ <- _].
Qed.

(** The first access of a paired instance runs the assembly and stores
    its result. *)
Lemma G_first_access (fuel : nat) (h : host) (self : t) (w : world) :
  ispaired self = true -> _G self = None ->
  G fuel h self w =
  match Intrgl_Fwr_Op fuel h None self w with
  | None => None
  | Some (Ok g, _, w') => Some (Ok g, set_G (Some g) self, w')
  | Some (Raise e, _, w') => Some (Raise e, self, w')
  end.
Proof.
  intros Hp Hg. unfold G, bind, get. rewrite Hp, Hg. cbn [negb].
  destruct (Intrgl_Fwr_Op fuel h None self w) as [[[r self'] w'] |] eqn:Hrun;
    [| reflexivity].
  apply Intrgl_Fwr_Op_keeps_state in Hrun as ->.
  by destruct r.
Qed.

Lemma G_cached (fuel : nat) (h : host) (self : t) (w : world) (g : array) :
  ispaired self = true -> _G self = Some g ->
  G fuel h self w = Some (Ok g, self, w).
Proof.
  intros Hp Hg. unfold G, bind, get, ret. by rewrite Hp, Hg.
Qed.

Lemma G_success_caches (fuel : nat) (h : host) (self self1 : t)
    (w w1 : world) (g : array) :
  G fuel h self w = Some (Ok g, self1, w1) ->
  ispaired self1 = true /\ _G self1 = Some g.
Proof.
  destruct (ispaired self) eqn:Hp.
  - destruct (_G self) as [g0 |] eqn:Hg.
    + rewrite (G_cached _ _ _ _ g0) by assumption.
      by intros [= <- <- <-].
    + rewrite G_first_access by assumption.
      destruct (Intrgl_Fwr_Op fuel h None self w) as [[[[g' | e] s'] w'] |];
        try discriminate.
      by intros [= <- <- <-].
  - unfold G, bind, get, raise. rewrite Hp. discriminate.
Qed.

(** C8: an access to [G] on an instance that is not paired raises
    [Exception('Need to pair!')] (the specification's NotPairedError) and
    touches neither the instance nor the world, so no assembly is
    attempted; on a paired instance the first access runs the assembly
    and keeps its result, and after a successful access every later one
    returns that same array without running anything. *)
Theorem C8_G_access (fuel : nat) (h : host) (self : t) (w : world) :
  (ispaired self = false ->
   G fuel h self w = Some (Raise (Exception "Need to pair!"), self, w)) /\
  (ispaired self = true -> _G self = None ->
   G fuel h self w =
   match Intrgl_Fwr_Op fuel h None self w with
   | None => None
   | Some (Ok g, _, w') => Some (Ok g, set_G (Some g) self, w')
   | Some (Raise e, _, w') => Some (Raise e, self, w')
   end) /\
  (forall (g : array) (self1 : t) (w1 : world),
      G fuel h self w = Some (Ok g, self1, w1) ->
      forall (fuel' : nat) (h' : host) (w' : world),
        G fuel' h' self1 w' = Some (Ok g, self1, w')).
Proof.
  split; [| split].
  - intros Hp. unfold G, bind, get, raise. by rewrite Hp.
  - apply G_first_access.
  - intros g self1 w1 Hrun fuel' h' w'.
    destruct (G_success_caches _ _ _ _ _ _ _ Hrun) as [Hp Hg].
    by apply G_cached.
Qed.

Lemma C8_G_access_witness :
  G 0 host0 (cell_problem false None IdentityMap IdentityMap_deriv) world0 =
  Some (Raise (Exception "Need to pair!"),
        cell_problem false None IdentityMap IdentityMap_deriv, world0) /\
  exists (g : array) (self1 : t),
    G 0 host0
      (cell_problem false (Some [(0, 0, 0)]) IdentityMap IdentityMap_deriv)
      world0 = Some (Ok g, self1, World ∅ [(0, 0, 0)]) /\
    G 1 host0 self1 world_stale = Some (Ok g, self1, world_stale).
Proof.
  split.
  - apply (proj1 (C8_G_access 0 host0
                    (cell_problem false None IdentityMap IdentityMap_deriv)
                    world0)).
    reflexivity.
  - eexists _, _. split.
    + rewrite (proj1 (proj2 (C8_G_access 0 host0
                 (cell_problem false (Some [(0, 0, 0)]) IdentityMap
                    IdentityMap_deriv) world0)) eq_refl eq_refl).
      reflexivity.
    + apply (proj2 (proj2 (C8_G_access 0 host0
                 (cell_problem false (Some [(0, 0, 0)]) IdentityMap
                    IdentityMap_deriv) world0)) _ _ (World ∅ [(0, 0, 0)])).
      reflexivity.
Defined.

(** The responses of a forward-only run with the sequential backend:
    each receiver's row times [rhoMap] applied TWICE to the model. *)
Lemma fields_forward_only (fuel : nat) (h : host) (self : t) (w : world)
    (m : vec) (locs : list receiver) (plan : Z * Z) :
  forwardOnly self = true -> parallelized self = None ->
  survey self = Some locs -> locs <> [] ->
  length (Yn self) = length (Xn self) ->
  length (Zn self) = length (Xn self) ->
  length (rhoMap self (rhoMap self m)) = length (Xn self) ->
  chunk_plan fuel (Z.of_nat (length locs)) (Z.of_nat (length (Xn self)))
    (default (cpu_count h) (n_cpu self)) (maxRAM self) = Some (Ok plan) ->
  exists (self' : t) (w' : world),
    fields fuel h m self w =
    Some (Ok ((fun xyzLoc =>
                 inner (calcTrow_row h (job self locs) xyzLoc)
                   (rhoMap self (rhoMap self m))) <$> locs),
          self', w').
Proof.
  intros Hfo Hp Hs Hlocs Hy Hz Hlen Hplan.
  unfold fields, bind, get. rewrite Hfo.
  unfold Intrgl_Fwr_Op, bind, modify, get, read, ret.
  cbn [survey set_model rhoMap]. rewrite Hs.
  rewrite (calculate_sequential_forward fuel h _ w
             (rhoMap self (rhoMap self m)) plan);
    try assumption; try reflexivity.
  cbn [contents]. rewrite mkvc_column.
  eexists _, _. reflexivity.
Qed.

(** The responses of a run that builds the matrix, with the sequential
    backend: each receiver's row times [rhoMap] applied once. *)
Lemma fields_full_matrix (fuel : nat) (h : host) (self : t) (w : world)
    (m : vec) (locs : list receiver) (plan : Z * Z) :
  forwardOnly self = false -> parallelized self = None ->
  survey self = Some locs -> locs <> [] -> _G self = None ->
  length (Yn self) = length (Xn self) ->
  length (Zn self) = length (Xn self) ->
  length (rhoMap self m) = length (Xn self) ->
  chunk_plan fuel (Z.of_nat (length locs)) (Z.of_nat (length (Xn self)))
    (default (cpu_count h) (n_cpu self)) (maxRAM self) = Some (Ok plan) ->
  exists (self' : t) (w' : world),
    fields fuel h m self w =
    Some (Ok ((fun xyzLoc =>
                 inner (calcTrow_row h (job self locs) xyzLoc)
                   (rhoMap self m)) <$> locs),
          self', w').
Proof.
  intros Hfo Hp Hs Hlocs HG Hy Hz Hlen Hplan.
  unfold fields, bind, get. rewrite Hfo.
  rewrite G_first_access by (assumption || (unfold ispaired; by rewrite Hs)).
  unfold Intrgl_Fwr_Op, bind, get, ret. rewrite Hs.
  rewrite (calculate_sequential_full fuel h _ w plan);
    try assumption; try reflexivity.
  unfold read, lift. cbn [contents].
  rewrite mat_vec_rows.
  - eexists _, _. reflexivity.
  - intros xyzLoc. rewrite length_calcTrow_row; cbn; congruence.
Qed.

(** C3 (the code departs from it): in forward-only mode [fields] maps the
    model twice, once in [fields] and once more in [Intrgl_Fwr_Op], so it
    returns [G * rhoMap(rhoMap(m))].  On the worked cell with the
    exponential map and [m = [0]] the forward-only response is the entry
    times [exp 1], the full-matrix response is the entry times [exp 0]. *)
Theorem C3_forward_only_maps_twice :
  let row := calcTrow_row host0 (cell_job None false None) (0, 0, 0) in
  exists (s1 s2 : t) (w1 w2 : world),
    fields 0 host0 [0]
      (cell_problem true (Some [(0, 0, 0)]) ExpMap ExpMap_deriv) world0
    = Some (Ok [inner row [exp (exp 0)]], s1, w1) /\
    fields 0 host0 [0]
      (cell_problem false (Some [(0, 0, 0)]) ExpMap ExpMap_deriv) world0
    = Some (Ok [inner row [exp 0]], s2, w2) /\
    [inner row [exp (exp 0)]] <> [inner row [exp 0]].
Proof.
  intros row.
  exists (set_model (Some (ExpMap (ExpMap [0])))
            (cell_problem true (Some [(0, 0, 0)]) ExpMap ExpMap_deriv)),
    (set_G (Some (InMemory [row]))
       (cell_problem false (Some [(0, 0, 0)]) ExpMap ExpMap_deriv)),
    (World ∅ [(0, 0, 0)]), (World ∅ [(0, 0, 0)]).
  split; [reflexivity |]. split; [reflexivity |].
  unfold row. rewrite cell_job_row. cbn [inner zip_with foldr].
  rewrite exp_0. intros Heq.
  apply (f_equal (fun l => nth 0 l 0)) in Heq. cbn [nth] in Heq.
  pose proof cell_job_sum_neg as Hneg.
  pose proof (exp_increasing 0 1 ltac:(lra)) as Hexp. rewrite exp_0 in Hexp.
  cbn [constants_G host0] in Heq.
  set (g := - (6.6743e-11 * 1e+8) *
            signed_corner_sum "z" (0, 0, 0) (-3, 3) (-4, 4) (-12, 0)) in *.
  assert (Hg : 0 < g) by (unfold g; nra).
  pose proof (Rmult_lt_0_compat g (exp 1 - 1) Hg ltac:(lra)). lra.
Qed.

(** On an instance without the cached vector, [getJtJdiag] reads [G]
    once more than the weights require and stores the column sums of
    squares; the weights [W] play no part. *)
Lemma getJtJdiag_fresh (fuel : nat) (h : host) (m : vec)
    (W : option spmatrix) (self : t) (w : world) :
  gtgdiag self = None ->
  getJtJdiag fuel h m W self w =
  match G fuel h (set_model (Some m) self) w with
  | None => None
  | Some (Raise e, s1, w1) => Some (Raise e, s1, w1)
  | Some (Ok g, s1, w1) =>
      match contents w1 g with
      | None => Some (Raise (ValueError "array not found"), s1, w1)
      | Some rows =>
          Some (JtJdiag_of (rhoMap_deriv self m) (colSumSquares rows),
                set_gtgdiag (Some (colSumSquares rows)) s1, w1)
      end
  end.
Proof.
  intros Hd. unfold getJtJdiag, bind, get, modify, ret, read, lift, JtJdiag_of.
  cbn [gtgdiag set_model]. rewrite Hd.
  destruct (G fuel h (set_model (Some m) self) w)
    as [[[[g | e] s1] w1] |] eqn:HG.
  - destruct (G_success_caches _ _ _ _ _ _ _ HG) as [Hp Hg].
    assert (HG' : G fuel h s1 w1 = Some (Ok g, s1, w1)) by by apply G_cached.
    destruct W as [W |]; rewrite HG; cbn beta iota; rewrite ?HG';
      (destruct (contents w1 g) as [rows |]; [| reflexivity]);
      cbn [gtgdiag set_gtgdiag default from_option]; unfold id;
      by destruct (sp_mul _ _).
  - destruct W; by rewrite HG.
  - destruct W; by rewrite HG.
Qed.

Lemma getJtJdiag_cached (fuel : nat) (h : host) (m : vec)
    (W : option spmatrix) (self : t) (w : world) (c : vec) :
  gtgdiag self = Some c ->
  getJtJdiag fuel h m W self w =
  Some (JtJdiag_of (rhoMap_deriv self m) c, set_model (Some m) self, w).
Proof.
  intros Hd. unfold getJtJdiag, bind, get, modify, ret, lift, JtJdiag_of.
  cbn [gtgdiag set_model]. rewrite Hd. cbn beta iota.
  change (gtgdiag (set_model (Some m) self)) with (gtgdiag self).
  rewrite Hd. cbn [default from_option]. unfold id.
  by destruct (sp_mul _ _).
Qed.

(** C6: on an instance that has not cached the vector yet, a successful
    [getJtJdiag(m, W)] returns [diag(dMap(m)^T * diag(c) * dMap(m))] for
    [c = da.sum(G**2., 0)], whose entry [j] is the sum of the squared
    entries of column [j] of [G]; the result, the instance and the world
    it leaves are the same for every [W]; and [c] is kept in [gtgdiag],
    so that every later call returns the formula on the kept [c] and
    neither reads [G] nor changes the world. *)
Theorem C6_getJtJdiag (fuel : nat) (h : host) (self self1 : t)
    (w w1 : world) (m : vec) (W : option spmatrix) (v : vec) :
  gtgdiag self = None ->
  getJtJdiag fuel h m W self w = Some (Ok v, self1, w1) ->
  exists (g : array) (rows : matrix),
    _G self1 = Some g /\ contents w1 g = Some rows /\
    gtgdiag self1 = Some (colSumSquares rows) /\
    (forall n j : nat,
        rows <> [] -> Forall (fun row => length row = n) rows -> (j < n)%nat ->
        colSumSquares rows !! j = Some (column_sum_of_squares rows j)) /\
    JtJdiag_spec (rhoMap_deriv self m) (colSumSquares rows) = Ok v /\
    (forall W' : option spmatrix,
        getJtJdiag fuel h m W' self w = Some (Ok v, self1, w1)) /\
    (forall (fuel' : nat) (h' : host) (m' : vec) (W' : option spmatrix)
            (w' : world),
        getJtJdiag fuel' h' m' W' self1 w' =
        Some (JtJdiag_spec (rhoMap_deriv self1 m') (colSumSquares rows),
              set_model (Some m') self1, w')).
Proof.
  intros Hd Hrun.
  pose proof (getJtJdiag_fresh fuel h m W self w Hd) as Hfresh.
  rewrite Hrun in Hfresh.
  destruct (G fuel h (set_model (Some m) self) w)
    as [[[[g | e] s1] w1'] |] eqn:HG; try discriminate.
  destruct (contents w1' g) as [rows |] eqn:Hrows; try discriminate.
  injection Hfresh as Hv -> ->.
  destruct (G_success_caches _ _ _ _ _ _ _ HG) as [Hp Hg].
  exists g, rows.
  unfold JtJdiag_of in Hv.
  rewrite JtJdiag_code_is_spec in Hv by apply colSumSquares_nonneg.
  repeat split; try done.
  - intros n j. apply colSumSquares_lookup.
  - intros W'. rewrite getJtJdiag_fresh, HG, Hrows by assumption.
    unfold JtJdiag_of.
    rewrite JtJdiag_code_is_spec by apply colSumSquares_nonneg.
    by rewrite <- Hv.
  - intros fuel' h' m' W' w'.
    rewrite (getJtJdiag_cached _ _ _ _ _ _ (colSumSquares rows))
      by reflexivity.
    unfold JtJdiag_of.
    by rewrite JtJdiag_code_is_spec by apply colSumSquares_nonneg.
Qed.

Lemma C6_getJtJdiag_witness :
  exists (g : array) (rows : matrix),
    _G cell_problem_after = Some g /\
    contents (World ∅ [(0, 0, 0)]) g = Some rows /\
    gtgdiag cell_problem_after = Some (colSumSquares rows) /\
    (forall n j : nat,
        rows <> [] -> Forall (fun row => length row = n) rows -> (j < n)%nat ->
        colSumSquares rows !! j = Some (column_sum_of_squares rows j)) /\
    JtJdiag_spec (rhoMap_deriv cell_problem_id [1]) (colSumSquares rows)
    = Ok cell_JtJdiag /\
    (forall W' : option spmatrix,
        getJtJdiag 0 host0 [1] W' cell_problem_id world0 =
        Some (Ok cell_JtJdiag, cell_problem_after, World ∅ [(0, 0, 0)])) /\
    (forall (fuel' : nat) (h' : host) (m' : vec) (W' : option spmatrix)
            (w' : world),
        getJtJdiag fuel' h' m' W' cell_problem_after w' =
        Some (JtJdiag_spec (rhoMap_deriv cell_problem_after m')
                (colSumSquares rows),
              set_model (Some m') cell_problem_after, w')).
Proof.
  apply (C6_getJtJdiag 0 host0 cell_problem_id cell_problem_after world0
           (World ∅ [(0, 0, 0)]) [1] None cell_JtJdiag); reflexivity.
Defined.

End Facade.

(** * Further properties *)

(** ** Symmetries of the kernel *)

Lemma arr_minus_shift (arr : list (R * R)) (t c : R) :
  arr_minus (arr_shift arr t) (c + t) = arr_minus arr c.
Proof.
  unfold arr_minus, arr_shift. rewrite <- list_fmap_compose.
  apply list_fmap_ext. intros _ [lo hi] _. cbn. f_equal; ring.
Qed.

Lemma minus_arr_shift (arr : list (R * R)) (t c : R) :
  minus_arr (c + t) (arr_shift arr t) = minus_arr c arr.
Proof.
  unfold minus_arr, arr_shift. rewrite <- list_fmap_compose.
  apply list_fmap_ext. intros _ [lo hi] _. cbn. f_equal; ring.
Qed.

(** X1: the kernel sees displacements only: moving the receiver and all
    the cells by one vector changes nothing in what [calcTrow] returns,
    in either mode. *)
Theorem calcTrow_translation (h : host) (self : Forward)
    (x0 y0 z0 tx ty tz : R) :
  calcTrow h (translate tx ty tz self) (x0 + tx, y0 + ty, z0 + tz) =
  calcTrow h self (x0, y0, z0).
Proof.
  assert (Hrow : calcTrow_row h (translate tx ty tz self)
                   (x0 + tx, y0 + ty, z0 + tz) =
                 calcTrow_row h self (x0, y0, z0)).
  { unfold calcTrow_row. cbn [Xn Yn Zn translate foldl seq].
    rewrite !arr_minus_shift, minus_arr_shift.
    unfold arr_shift at 1. rewrite length_fmap.
    reflexivity. }
  unfold calcTrow. rewrite Hrow. reflexivity.
Qed.

Lemma signed_corner_sum_swap (c : string) (xyzLoc : receiver)
    (xn yn zn : R * R) :
  signed_corner_sum c xyzLoc (swap xn) yn zn = - signed_corner_sum c xyzLoc xn yn zn /\
  signed_corner_sum c xyzLoc xn (swap yn) zn = - signed_corner_sum c xyzLoc xn yn zn /\
  signed_corner_sum c xyzLoc xn yn (swap zn) = - signed_corner_sum c xyzLoc xn yn zn.
Proof.
  destruct xyzLoc as [[x0 y0] z0].
  destruct xn as [x1 x2], yn as [y1 y2], zn as [z1 z2].
  unfold signed_corner_sum, sum01, swap. cbn [pick fst snd Nat.add].
  repeat split; ring.
Qed.

Lemma calcTrow_row_cell (h : host) (self : Forward) (xyzLoc : receiver)
    (j : nat) (xn yn zn : R * R) :
  cell_at self j = Some (xn, yn, zn) ->
  calcTrow_row h self xyzLoc !! j =
  Some (- (constants_G h * 1e+8) *
        signed_corner_sum (rxType self) xyzLoc xn yn zn).
Proof.
  unfold cell_at.
  destruct (Xn self !! j) eqn:Hx, (Yn self !! j) eqn:Hy,
    (Zn self !! j) eqn:Hz; try discriminate.
  intros [= -> -> ->]. by apply calcTrow_row_lookup.
Qed.

(** X2: orientation.  A cell given with its two corners exchanged along
    one axis has the opposite entry in the row: the entries have the
    sign of the response only for cells with [lo <= hi]. *)
Theorem calcTrow_row_flipped (h : host) (self self' : Forward)
    (xyzLoc : receiver) (j : nat) (c c' : cell) (v : R) :
  rxType self' = rxType self ->
  cell_at self j = Some c -> cell_at self' j = Some c' -> flipped c c' ->
  calcTrow_row h self xyzLoc !! j = Some v ->
  calcTrow_row h self' xyzLoc !! j = Some (- v).
Proof.
  intros Hc Hcell Hcell' Hflip Hv.
  destruct Hflip as [xn yn zn | xn yn zn | xn yn zn];
    rewrite (calcTrow_row_cell h self xyzLoc j _ _ _ Hcell) in Hv;
    apply (inj Some) in Hv; subst v;
    rewrite (calcTrow_row_cell h self' xyzLoc j _ _ _ Hcell'), Hc;
    f_equal;
    destruct (signed_corner_sum_swap (rxType self) xyzLoc xn yn zn)
      as (Sx & Sy & Sz);
    rewrite ?Sx, ?Sy, ?Sz; ring.
Qed.

Lemma calcTrow_row_flipped_witness :
  calcTrow_row host0
    (mkForward None [(0, 0, 0)] [(3, -3)] [(-4, 4)] [(-12, 0)] (Some 1%Z)
       false None "z" 8%Q true "./sensitivity.zarr") (0, 0, 0) !! 0%nat =
  Some (- (- (constants_G host0 * 1e+8) *
          signed_corner_sum "z" (0, 0, 0) (-3, 3) (-4, 4) (-12, 0))).
Proof.
  apply (calcTrow_row_flipped host0 (cell_job None false None) _
           (0, 0, 0) 0%nat ((-3, 3), (-4, 4), (-12, 0))
           ((3, -3), (-4, 4), (-12, 0)));
    try reflexivity.
  - apply (flipped_x (-3, 3)).
  - apply (calcTrow_row_lookup host0 (cell_job None false None) (0, 0, 0)
             0%nat (-3, 3) (-4, 4) (-12, 0)); reflexivity.
Defined.

Lemma signed_corner_sum_split (c : string) (xyzLoc : receiver)
    (a b d : R) (yn zn : R * R) :
  signed_corner_sum c xyzLoc (a, d) yn zn =
  signed_corner_sum c xyzLoc (a, b) yn zn +
  signed_corner_sum c xyzLoc (b, d) yn zn /\
  signed_corner_sum c xyzLoc yn (a, d) zn =
  signed_corner_sum c xyzLoc yn (a, b) zn +
  signed_corner_sum c xyzLoc yn (b, d) zn /\
  signed_corner_sum c xyzLoc yn zn (a, d) =
  signed_corner_sum c xyzLoc yn zn (a, b) +
  signed_corner_sum c xyzLoc yn zn (b, d).
Proof.
  destruct xyzLoc as [[x0 y0] z0].
  destruct yn as [y1 y2], zn as [z1 z2].
  unfold signed_corner_sum, sum01. cbn [pick fst snd Nat.add].
  repeat split; ring.
Qed.

(** X3: additivity.  When cell [j] is cut in two by a plane across an
    axis and the halves are the cells [j1] and [j2], the entry of [j] is
    the sum of the entries of [j1] and [j2]: refining the mesh does not
    change the response of a uniform density. *)
Theorem calcTrow_row_halves (h : host) (self : Forward)
    (xyzLoc : receiver) (j j1 j2 : nat) (c c1 c2 : cell) (v1 v2 : R) :
  cell_at self j = Some c -> cell_at self j1 = Some c1 ->
  cell_at self j2 = Some c2 -> halves c c1 c2 ->
  calcTrow_row h self xyzLoc !! j1 = Some v1 ->
  calcTrow_row h self xyzLoc !! j2 = Some v2 ->
  calcTrow_row h self xyzLoc !! j = Some (v1 + v2).
Proof.
  intros Hc Hc1 Hc2 Hcut Hv1 Hv2.
  destruct Hcut as [a b d yn zn | a b d xn zn | a b d xn yn];
    rewrite (calcTrow_row_cell h self xyzLoc j1 _ _ _ Hc1) in Hv1;
    rewrite (calcTrow_row_cell h self xyzLoc j2 _ _ _ Hc2) in Hv2;
    apply (inj Some) in Hv1, Hv2; subst v1 v2;
    rewrite (calcTrow_row_cell h self xyzLoc j _ _ _ Hc); f_equal.
  - rewrite (proj1 (signed_corner_sum_split (rxType self) xyzLoc a b d yn zn)).
    ring.
  - rewrite (proj1 (proj2 (signed_corner_sum_split (rxType self) xyzLoc
                             a b d xn zn))).
    ring.
  - rewrite (proj2 (proj2 (signed_corner_sum_split (rxType self) xyzLoc
                             a b d xn yn))).
    ring.
Qed.

Lemma calcTrow_row_halves_witness :
  calcTrow_row host0 split_job (0, 0, 0) !! 0%nat =
  Some (- (constants_G host0 * 1e+8) *
          signed_corner_sum "z" (0, 0, 0) (-3, 3) (-4, 4) (-12, -5) +
        - (constants_G host0 * 1e+8) *
          signed_corner_sum "z" (0, 0, 0) (-3, 3) (-4, 4) (-5, 0)).
Proof.
  apply (calcTrow_row_halves host0 split_job (0, 0, 0) 0%nat 1%nat 2%nat
           ((-3, 3), (-4, 4), (-12, 0)) ((-3, 3), (-4, 4), (-12, -5))
           ((-3, 3), (-4, 4), (-5, 0)));
    try reflexivity.
  - apply halves_z.
  - apply (calcTrow_row_lookup host0 split_job (0, 0, 0) 1%nat); reflexivity.
  - apply (calcTrow_row_lookup host0 split_job (0, 0, 0) 2%nat); reflexivity.
Defined.

(** ** More on the assembly *)

(** The worker pool and the sequential loop assemble in the same way. *)
Lemma assemble_pool (h : host) (self : Forward) (n : Z) (plan : Z * Z)
    (w : world) :
  parallelized self = None \/
  (parallelized self = Some "multiprocessing"%string /\ (1 <= n)%Z) ->
  assemble h self n plan w = stack_rows h self w.
Proof.
  intros [Hp | [Hp Hn]]; unfold assemble; rewrite Hp; [reflexivity |].
  cbn [truthy default String.eqb Ascii.eqb Bool.eqb negb].
  rewrite bool_decide_eq_true_2 by (rewrite !elem_of_cons; tauto).
  cbn [negb].
  rewrite bool_decide_eq_false_2 by discriminate.
  by rewrite bool_decide_eq_false_2 by lia.
Qed.

Lemma eval_rows_files (h : host) (self : Forward) (rx : list receiver) :
  forall w, files (snd (eval_rows h self rx w)) = files w.
Proof.
  induction rx as [| xyzLoc rest IH]; intros w; [reflexivity |].
  cbn [eval_rows]. destruct (calcTrow h self xyzLoc); [| reflexivity].
  specialize (IH (log_call xyzLoc w)).
  destruct (eval_rows h self rest (log_call xyzLoc w)) as [[rows | e] w2];
    exact IH.
Qed.

Lemma stack_rows_files (h : host) (self : Forward) (w : world) :
  files (snd (stack_rows h self w)) = files w.
Proof.
  unfold stack_rows.
  pose proof (eval_rows_files h self (rxLoc self) w) as Hf.
  destruct (eval_rows h self (rxLoc self) w) as [[rows | e] w1];
    [| exact Hf].
  by destruct (vstack rows).
Qed.

(** X4: stores.  Whatever its outcome, [calculate] leaves every store
    other than the one at [Jpath] as it was, and a store that exists at
    [Jpath] is never rewritten; only the dask backend with [storeG] ever
    writes. *)
Theorem calculate_keeps_stores (fuel : nat) (h : host) (self : Forward)
    (w w' : world) (r : res array) (path : string) :
  calculate fuel h self w = Some (r, w') ->
  path <> Jpath self \/ is_Some (files w !! Jpath self) \/
  parallelized self <> Some "dask"%string \/ storeG self = false ->
  files w' !! path = files w !! path.
Proof.
  unfold calculate.
  destruct (chunk_plan fuel _ _ _ _) as [[plan | e] |]; try discriminate;
    [| by intros [= _ <-]].
  intros [= Hrun] Hcase. revert Hrun. unfold assemble.
  destruct (truthy (parallelized self)) eqn:Htruthy.
  - destruct (negb (bool_decide _)) eqn:Hvalid; [by intros [= _ <-] |].
    destruct (bool_decide (default EmptyString (parallelized self) = _))
      eqn:Hdask.
    + apply bool_decide_eq_true_1 in Hdask.
      destruct (parallelized self) as [p |] eqn:Hp; [| discriminate].
      simpl in Hdask. subst p.
      destruct (files w !! Jpath self) as [stored |] eqn:Hfile;
        [by intros [= _ <-] |].
      destruct (vstack (rxLoc self)); [| by intros [= _ <-]].
      destruct (dask_rechunk h plan _); [| by intros [= _ <-]].
      pose proof (eval_rows_files h self (rxLoc self) w) as Hf.
      destruct (eval_rows h self (rxLoc self) w) as [[stack | e] w1];
        cbn [snd] in Hf; [| intros [= _ <-]; by rewrite Hf].
      destruct (storeG self) eqn:Hs; intros [= _ <-];
        [| by rewrite Hf].
      cbn [to_zarr files]. rewrite Hf.
      destruct Hcase as [Hne | [Hsome | [Hnd | Hns]]];
        [| destruct Hsome; congruence | congruence | congruence].
      by rewrite lookup_insert_ne.
    + destruct (bool_decide (_ < 1)%Z); [by intros [= _ <-] |].
      intros Hrun. pose proof (stack_rows_files h self w) as Hf.
      rewrite Hrun in Hf. cbn [snd] in Hf. by rewrite Hf.
  - intros Hrun. pose proof (stack_rows_files h self w) as Hf.
    rewrite Hrun in Hf. cbn [snd] in Hf. by rewrite Hf.
Qed.

Lemma calculate_keeps_stores_witness :
  files world_stored !! "./other.zarr"%string =
  files world0 !! "./other.zarr"%string.
Proof.
  apply (calculate_keeps_stores 0 host0
           (cell_job (Some "dask"%string) false None) world0 world_stored
           (Ok (FromZarr "./sensitivity.zarr")) "./other.zarr").
  - reflexivity.
  - left. discriminate.
Defined.

(** X5: the matrix of the worker pool and of the sequential loop.  When
    the chunk planner returns a plan, with forward-only mode off and at
    least one receiver the result is an in-memory matrix with one row
    per receiver and one column per cell; no store has been touched and
    the kernel has been called exactly once for each receiver, by the
    sequential loop in the order of the receivers (the worker pool fixes
    no order of its calls). *)
Theorem calculate_pool_matrix (fuel : nat) (h : host) (self : Forward)
    (w : world) (plan : Z * Z) :
  forwardOnly self = false -> rxLoc self <> [] ->
  length (Yn self) = length (Xn self) ->
  length (Zn self) = length (Xn self) ->
  parallelized self = None \/
  (parallelized self = Some "multiprocessing"%string /\
   (1 <= default (cpu_count h) (n_cpu self))%Z) ->
  chunk_plan fuel (Z.of_nat (length (rxLoc self)))
    (Z.of_nat (length (Xn self))) (default (cpu_count h) (n_cpu self))
    (maxRAM self) = Some (Ok plan) ->
  exists (G : matrix) (w' : world),
    calculate fuel h self w = Some (Ok (InMemory G), w') /\
    length G = length (rxLoc self) /\
    Forall (fun row => length row = length (Xn self)) G /\
    files w' = files w /\
    (exists calls : list receiver,
        kernel_calls w' = kernel_calls w ++ calls /\
        calls ≡ₚ rxLoc self /\
        (parallelized self = None -> calls = rxLoc self)).
Proof.
  intros Hfo Hrx Hy Hz Hp Hplan.
  exists (calcTrow_row h self <$> rxLoc self),
    (World (files w) (kernel_calls w ++ rxLoc self)).
  split; [| split; [| split; [| split]]].
  - unfold calculate. rewrite Hplan, assemble_pool by assumption.
    by rewrite stack_rows_full.
  - apply length_fmap.
  - apply Forall_fmap, Forall_true. intros xyzLoc.
    by apply length_calcTrow_row.
  - reflexivity.
  - exists (rxLoc self). split; [reflexivity |]. by split.
Qed.

Lemma calculate_pool_matrix_witness :
  exists (G : matrix) (w' : world),
    calculate 0 host0 split_job world0 = Some (Ok (InMemory G), w') /\
    length G = length (rxLoc split_job) /\
    Forall (fun row => length row = length (Xn split_job)) G /\
    files w' = files world0 /\
    (exists calls : list receiver,
        kernel_calls w' = kernel_calls world0 ++ calls /\
        calls ≡ₚ rxLoc split_job /\
        (parallelized split_job = None -> calls = rxLoc split_job)).
Proof.
  apply (calculate_pool_matrix 0 host0 split_job world0 (1, 3)%Z);
    try reflexivity.
  - discriminate.
  - left. reflexivity.
Defined.

(** X6: streaming.  For one job and one model, the sequential loop and
    the worker pool return in forward-only mode the column of the
    products of the rows with the model: flattened, it is the matrix
    built with forward-only mode off times the model. *)
Theorem forward_only_is_matrix_product (fuel : nat) (h : host)
    (self : Forward) (w : world) (m : vec) (plan : Z * Z) :
  model self = Some m -> rxLoc self <> [] ->
  length (Yn self) = length (Xn self) ->
  length (Zn self) = length (Xn self) ->
  length m = length (Xn self) ->
  parallelized self = None \/
  (parallelized self = Some "multiprocessing"%string /\
   (1 <= default (cpu_count h) (n_cpu self))%Z) ->
  chunk_plan fuel (Z.of_nat (length (rxLoc self)))
    (Z.of_nat (length (Xn self))) (default (cpu_count h) (n_cpu self))
    (maxRAM self) = Some (Ok plan) ->
  exists (column G : matrix) (w' : world),
    calculate fuel h (with_forwardOnly true self) w
    = Some (Ok (InMemory column), w') /\
    calculate fuel h (with_forwardOnly false self) w
    = Some (Ok (InMemory G), w') /\
    mat_vec G m = Ok (mkvc column).
Proof.
  intros Hm Hrx Hy Hz Hlen Hp Hplan.
  exists ((fun xyzLoc => [inner (calcTrow_row h self xyzLoc) m]) <$> rxLoc self),
    (calcTrow_row h self <$> rxLoc self),
    (World (files w) (kernel_calls w ++ rxLoc self)).
  split; [| split].
  - unfold calculate. cbn [rxLoc Xn n_cpu maxRAM with_forwardOnly].
    rewrite Hplan, assemble_pool by exact Hp.
    unfold stack_rows. cbn [rxLoc with_forwardOnly].
    rewrite (eval_rows_forward h (with_forwardOnly true self) m)
      by (assumption || reflexivity).
    rewrite vstack_nonempty; [reflexivity |].
    by destruct (rxLoc self).
  - unfold calculate. cbn [rxLoc Xn n_cpu maxRAM with_forwardOnly].
    rewrite Hplan, assemble_pool by exact Hp.
    by rewrite stack_rows_full.
  - rewrite mkvc_column. apply mat_vec_rows.
    intros xyzLoc. rewrite length_calcTrow_row; congruence.
Qed.

Lemma forward_only_is_matrix_product_witness :
  exists (column G : matrix) (w' : world),
    calculate 0 host0 (with_forwardOnly true (cell_job None false (Some [2])))
      world0 = Some (Ok (InMemory column), w') /\
    calculate 0 host0 (with_forwardOnly false (cell_job None false (Some [2])))
      world0 = Some (Ok (InMemory G), w') /\
    mat_vec G [2] = Ok (mkvc column).
Proof.
  apply (forward_only_is_matrix_product 0 host0
           (cell_job None false (Some [2])) world0 [2] (1, 1)%Z);
    try reflexivity.
  - discriminate.
  - left. reflexivity.
Defined.

(** X7: no receivers.  An empty receiver list is an error and not an
    empty matrix: every backend fails on stacking nothing (the dask
    backend unless a store is there to load), whatever the mode, without
    a call of the kernel and without a store written. *)
Theorem calculate_no_receivers (fuel : nat) (h : host) (self : Forward)
    (w : world) :
  rxLoc self = [] ->
  default (cpu_count h) (n_cpu self) <> 0%Z -> (0 <= maxRAM self)%Q ->
  parallelized self = None \/
  (parallelized self = Some "multiprocessing"%string /\
   (1 <= default (cpu_count h) (n_cpu self))%Z) \/
  (parallelized self = Some "dask"%string /\ files w !! Jpath self = None) ->
  calculate fuel h self w =
  Some (Raise (ValueError "need at least one array to concatenate"), w).
Proof.
  intros Hrx Hcpu Hram Hp. unfold calculate. rewrite Hrx. cbn [length].
  unfold chunk_plan. rewrite decide_False by assumption.
  change (int_div (Z.of_nat 0) ?n) with (Z.quot 0 n).
  rewrite Z.quot_0_l by assumption.
  assert (Hfit : Qle_bool (totRAM 0 (int_div (Z.of_nat (length (Xn self)))
                                       (default (cpu_count h) (n_cpu self)))
                             (default (cpu_count h) (n_cpu self)))
                   (maxRAM self) = true).
  { apply Qle_bool_iff. unfold totRAM.
    rewrite !Z.mul_0_l. unfold Qle in *. cbn in *. lia. }
  destruct fuel; cbn [plan_loop fmap option_fmap option_map];
    rewrite Hfit; cbn [fmap option_fmap option_map].
  all: destruct Hp as [Hp | [[Hp Hn] | [Hp Hfile]]].
  all: try (rewrite assemble_pool by tauto; unfold stack_rows;
            rewrite Hrx; reflexivity).
  all: unfold assemble; rewrite Hp;
    cbn [truthy default String.eqb Ascii.eqb Bool.eqb negb];
    rewrite bool_decide_eq_true_2 by (rewrite !elem_of_cons; tauto);
    cbn [negb]; rewrite bool_decide_eq_true_2 by reflexivity;
    rewrite Hfile, Hrx; reflexivity.
Qed.

Lemma calculate_no_receivers_witness :
  calculate 0 host0 (empty_job (Some "dask"%string)) world0 =
  Some (Raise (ValueError "need at least one array to concatenate"), world0).
Proof.
  apply (calculate_no_receivers 0 host0 (empty_job (Some "dask"%string)) world0).
  - reflexivity.
  - discriminate.
  - discriminate.
  - right. right. split; [reflexivity | apply lookup_empty].
Defined.

(** ** More on the chunk planner *)

Section FirstFit.
Local Open Scope Z_scope.
Variables (nD nC n_cpu : Z) (maxRAM : Q).

Lemma plan_loop_first_fit (fuel : nat) :
  forall (i : nat) (plan : Z * Z),
    plan_loop fuel nD nC n_cpu maxRAM (n_cpu * 2 ^ Z.of_nat i)
      (fst (candidate nD nC n_cpu i)) (snd (candidate nD nC n_cpu i))
    = Some plan ->
    exists k : nat,
      (i <= k <= i + fuel)%nat /\ plan = candidate nD nC n_cpu k /\
      fits n_cpu maxRAM plan /\
      forall j : nat, (i <= j < k)%nat ->
                      ~ fits n_cpu maxRAM (candidate nD nC n_cpu j).
Proof.
  induction fuel as [| fuel IH]; intros i plan.
  - cbn [plan_loop].
    destruct (Qle_bool _ maxRAM) eqn:Hfit; [| discriminate].
    intros [= <-]. exists i. repeat split; try lia.
    + by destruct (candidate nD nC n_cpu i).
    + unfold fits. cbn [fst snd]. by apply Qle_bool_iff.
  - rewrite plan_loop_S.
    destruct (Qle_bool _ maxRAM) eqn:Hfit.
    + intros [= <-]. exists i. repeat split; try lia.
      * by destruct (candidate nD nC n_cpu i).
      * unfold fits. cbn [fst snd]. by apply Qle_bool_iff.
    + intros Hrun.
      assert (Hpow : n_cpu * 2 ^ Z.of_nat i * 2 = n_cpu * 2 ^ Z.of_nat (S i)).
      { rewrite Nat2Z.inj_succ, Z.pow_succ_r by lia. ring. }
      rewrite Hpow in Hrun.
      destruct (IH (S i) plan Hrun) as (k & Hk & Hplan & Hfits & Hfirst).
      exists k. repeat split; try lia; try assumption.
      intros j Hj. destruct (decide (j = i)) as [-> | Hne].
      * unfold fits. intros Hle. apply Qle_bool_iff in Hle. congruence.
      * apply Hfirst. lia.
Qed.

End FirstFit.

Lemma chunk_plan_first_fit_aux (fuel : nat) (nD nC n_cpu : Z) (maxRAM : Q)
    (plan : Z * Z) :
  chunk_plan fuel nD nC n_cpu maxRAM = Some (Ok plan) ->
  exists k : nat, plan = candidate nD nC n_cpu k.
Proof.
  unfold chunk_plan. case_decide; [discriminate |].
  destruct (plan_loop fuel nD nC n_cpu maxRAM n_cpu _ _) as [p |] eqn:Hrun;
    [| discriminate].
  intros [= ->].
  destruct (plan_loop_first_fit nD nC n_cpu maxRAM fuel 0 plan)
    as (k & _ & Hplan & _).
  - cbn [candidate fst snd Z.of_nat]. rewrite Z.pow_0_r, Z.mul_1_r.
    exact Hrun.
  - by exists k.
Qed.

(** X8: first fit.  A plan that the chunk planner returns is the first
    of its candidates (the truncated start, then the rounded-up sizes
    after 1, 2, ... doublings) whose estimate is within the budget: no
    earlier candidate fits, so the chunks are as large as the doubling
    allows. *)
Theorem chunk_plan_first_fit (fuel : nat) (nD nC n_cpu : Z) (maxRAM : Q)
    (plan : Z * Z) :
  chunk_plan fuel nD nC n_cpu maxRAM = Some (Ok plan) ->
  exists k : nat,
    (k <= fuel)%nat /\ plan = candidate nD nC n_cpu k /\
    fits n_cpu maxRAM plan /\
    forall j : nat, (j < k)%nat -> ~ fits n_cpu maxRAM (candidate nD nC n_cpu j).
Proof.
  unfold chunk_plan. case_decide; [discriminate |].
  destruct (plan_loop fuel nD nC n_cpu maxRAM n_cpu _ _) as [p |] eqn:Hrun;
    [| discriminate].
  intros [= ->].
  destruct (plan_loop_first_fit nD nC n_cpu maxRAM fuel 0 plan)
    as (k & Hk & Hplan & Hfits & Hfirst).
  - cbn [candidate fst snd Z.of_nat]. rewrite Z.pow_0_r, Z.mul_1_r.
    exact Hrun.
  - exists k. repeat split; try lia; try assumption.
    intros j Hj. apply Hfirst. lia.
Qed.

Lemma chunk_plan_first_fit_witness :
  exists k : nat,
    (k <= 3)%nat /\ (125, 125)%Z = candidate 1000 1000 4 k /\
    fits 4 (1 # 1000) (125, 125)%Z /\
    forall j : nat, (j < k)%nat ->
                    ~ fits 4 (1 # 1000) (candidate 1000 1000 4 j).
Proof.
  apply (chunk_plan_first_fit 3 1000 1000 4 (1 # 1000) (125, 125)%Z).
  vm_compute. reflexivity.
Defined.

Lemma ceil_div_le_start (a n m : Z) :
  (1 <= n)%Z -> (n <= a)%Z -> (2 * n <= m)%Z ->
  (1 <= ceil_div a m <= int_div a n)%Z.
Proof.
  intros Hn Ha Hm. split; [apply ceil_div_ge_1; lia |].
  unfold ceil_div, int_div. rewrite Z.quot_div_nonneg by lia.
  pose proof (Z.div_mod a n ltac:(lia)) as Hdm.
  pose proof (Z.mod_pos_bound a n ltac:(lia)) as Hmod.
  assert (Hq : (1 <= a / n)%Z) by (apply Z.div_le_lower_bound; lia).
  assert (Hlow : (- (a / n) <= - a / m)%Z).
  { apply Z.div_le_lower_bound; [lia |]. nia. }
  lia.
Qed.

Lemma candidate_within_start (nD nC n_cpu : Z) (k : nat) :
  (1 <= n_cpu)%Z -> (n_cpu <= nD)%Z -> (n_cpu <= nC)%Z ->
  (1 <= fst (candidate nD nC n_cpu k) <= int_div nD n_cpu)%Z /\
  (1 <= snd (candidate nD nC n_cpu k) <= int_div nC n_cpu)%Z.
Proof.
  intros Hn HD HC. destruct k as [| k].
  - cbn [candidate fst snd].
    pose proof (int_div_ge_1 nD n_cpu Hn HD).
    pose proof (int_div_ge_1 nC n_cpu Hn HC). lia.
  - cbn [candidate fst snd].
    assert (Hm : (2 * n_cpu <= n_cpu * 2 ^ Z.of_nat (S k))%Z).
    { rewrite Nat2Z.inj_succ, Z.pow_succ_r by lia.
      pose proof (Z.pow_pos_nonneg 2 (Z.of_nat k) ltac:(lia) ltac:(lia)).
      nia. }
    split; apply ceil_div_le_start; assumption.
Qed.

(** X9: shrinking.  With at least one worker, at least [n_cpu]
    receivers and [n_cpu] cells, and a budget that holds the estimate of
    one 1 x 1 chunk per worker ([8 * n_cpu * 1e-9 <= maxRAM]), the
    planner returns a plan (the same for every fuel from [max nD nC] on)
    whose chunk sizes lie between 1 and the sizes it started from,
    [int(nD / n_cpu)] by [int(nC / n_cpu)]: doubling never enlarges a
    chunk and never empties it. *)
Theorem chunk_plan_within_start (nD nC n_cpu : Z) (maxRAM : Q) :
  (1 <= n_cpu)%Z -> (n_cpu <= nD)%Z -> (n_cpu <= nC)%Z ->
  (totRAM 1 1 n_cpu <= maxRAM)%Q ->
  exists r c : Z,
    (forall fuel : nat,
        (Z.to_nat (Z.max nD nC) <= fuel)%nat ->
        chunk_plan fuel nD nC n_cpu maxRAM = Some (Ok (r, c))) /\
    (1 <= r <= int_div nD n_cpu)%Z /\ (1 <= c <= int_div nC n_cpu)%Z.
Proof.
  intros Hn HD HC Hbudget.
  destruct (chunk_plan_ends nD nC n_cpu maxRAM ltac:(lia) ltac:(lia) Hn
              Hbudget) as (r & c & Hrun & _).
  exists r, c. split; [exact Hrun |].
  specialize (Hrun (Z.to_nat (Z.max nD nC)) ltac:(lia)).
  destruct (chunk_plan_first_fit_aux _ nD nC n_cpu maxRAM (r, c) Hrun)
    as (k & Hk).
  pose proof (candidate_within_start nD nC n_cpu k Hn HD HC) as Hb.
  rewrite <- Hk in Hb. exact Hb.
Qed.

Lemma chunk_plan_within_start_witness :
  exists r c : Z,
    (forall fuel : nat,
        (Z.to_nat (Z.max 1000 1000) <= fuel)%nat ->
        chunk_plan fuel 1000 1000 4 (1 # 1000) = Some (Ok (r, c))) /\
    (1 <= r <= int_div 1000 4)%Z /\ (1 <= c <= int_div 1000 4)%Z.
Proof.
  apply (chunk_plan_within_start 1000 1000 4 (1 # 1000)); try lia.
  vm_compute. discriminate.
Defined.

(** ** Progress messages *)

Lemma StronglySorted_snoc_lt (l : list Z) (x : Z) :
  StronglySorted Z.lt l -> Forall (fun p => (p < x)%Z) l ->
  StronglySorted Z.lt (l ++ [x]).
Proof.
  induction 1 as [| p l Hl IH Hp]; intros Hx; cbn.
  - repeat constructor.
  - apply Forall_cons in Hx as [Hpx Hx].
    constructor; [by apply IH |].
    apply Forall_app. split; [assumption | by constructor].
Qed.

Section Progress.
Local Open Scope Z_scope.
Variable total : Z.
Hypothesis Htotal : 0 < total.

Lemma decile_mono (i j : nat) : (i <= j)%nat -> decile total i <= decile total j.
Proof. intros Hij. unfold decile. apply Z.div_le_mono; lia. Qed.

Lemma progress_calls_run (len : nat) :
  forall (a : nat) (idx : Z) (msgs : list Z),
    idx <= decile total a ->
    Forall (fun p => p <= idx * 10) msgs ->
    StronglySorted Z.lt msgs ->
    exists (idx' : Z) (msgs' : list Z),
      progress_calls total (seq a len) (idx, msgs) = Ok (idx', msgs') /\
      StronglySorted Z.lt msgs' /\
      Forall (fun p => p <= idx' * 10) msgs' /\
      idx <= idx' /\
      forall p : Z,
        p ∈ msgs' <->
        p ∈ msgs \/
        exists i : nat, (a <= i < a + len)%nat /\ p = decile total i * 10 /\
                        idx < decile total i.
Proof.
  induction len as [| len IH]; intros a idx msgs Hidx Hle Hsorted.
  - exists idx, msgs. cbn [seq progress_calls].
    repeat split; try assumption; try lia.
    + by left.
    + intros [Hp | (i & Hi & _)]; [assumption | lia].
  - cbn [seq progress_calls]. unfold progress at 1.
    rewrite decide_False by lia. cbn [fst snd].
    fold (decile total a).
    destruct (idx <? decile total a) eqn:Hlt.
    + apply Z.ltb_lt in Hlt.
      destruct (IH (S a) (decile total a) (msgs ++ [decile total a * 10]))
        as (idx' & msgs' & Hrun & Hs & Hb & Hmono & Hmem).
      * apply decile_mono. lia.
      * apply Forall_app. split; [| by repeat constructor].
        eapply Forall_impl; [exact Hle |]. cbn. lia.
      * apply StronglySorted_snoc_lt; [assumption |].
        eapply Forall_impl; [exact Hle |]. cbn. lia.
      * exists idx', msgs'. rewrite Hrun.
        repeat split; try assumption; try lia.
        -- intros Hp. apply Hmem in Hp as [Hp | (i & Hi & Hpi & Hgt)].
           ++ apply elem_of_app in Hp as [Hp | Hp]; [by left |].
              apply list_elem_of_singleton in Hp. right.
              exists a. repeat split; try lia; assumption.
           ++ right. exists i. repeat split; try lia; assumption.
        -- intros [Hp | (i & Hi & Hpi & Hgt)]; apply Hmem.
           ++ left. apply elem_of_app. by left.
           ++ destruct (decide (decile total i = decile total a)) as [Heq | Hne].
              ** left. apply elem_of_app. right.
                 apply list_elem_of_singleton. congruence.
              ** right. exists i.
                 pose proof (decile_mono a i ltac:(lia)).
                 repeat split; try lia; try assumption.
                 destruct (decide (i = a)) as [-> | ?]; [congruence | lia].
    + apply Z.ltb_ge in Hlt.
      destruct (IH (S a) idx msgs) as (idx' & msgs' & Hrun & Hs & Hb & Hmono & Hmem);
        try assumption.
      * pose proof (decile_mono a (S a) ltac:(lia)). lia.
      * exists idx', msgs'. rewrite Hrun.
        repeat split; try assumption.
        -- intros Hp. apply Hmem in Hp as [Hp | (i & Hi & Hpi & Hgt)];
             [by left |].
           right. exists i. repeat split; try lia; assumption.
        -- intros [Hp | (i & Hi & Hpi & Hgt)]; apply Hmem; [by left |].
           right. exists i.
           assert (i <> a) by (intros ->; lia).
           repeat split; try assumption; lia.
Qed.

End Progress.

(** X10: progress.  A sequential run over [nD] receivers prints the
    percentages in strictly increasing order, so none twice; the
    percentages printed are exactly the tens [10 * floor(10 * ii / nD)]
    of the indices of the receivers, all between 0 and 90. *)
Theorem sequential_progress_messages (nD : nat) :
  exists (idx : Z) (msgs : list Z),
    sequential_progress nD = Ok (idx, msgs) /\
    StronglySorted Z.lt msgs /\
    (forall p : Z,
        p ∈ msgs <->
        exists ii : nat,
          (ii < nD)%nat /\ p = (Z.of_nat ii * 10 / Z.of_nat nD * 10)%Z) /\
    Forall (fun p => (0 <= p <= 90)%Z) msgs.
Proof.
  unfold sequential_progress. destruct nD as [| n].
  - exists (-1)%Z, []. cbn. repeat split; try constructor.
    + intros Hp. by apply elem_of_nil in Hp.
    + intros (ii & Hii & _). lia.
  - set (total := Z.of_nat (S n)).
    assert (Htotal : (0 < total)%Z) by (unfold total; lia).
    destruct (progress_calls_run total Htotal (S n) 0 (-1)%Z [])
      as (idx & msgs & Hrun & Hs & Hb & Hmono & Hmem).
    + apply Z.div_le_lower_bound; lia.
    + constructor.
    + constructor.
    + assert (Hall : forall p : Z,
                 p ∈ msgs <->
                 exists ii : nat,
                   (ii < S n)%nat /\ p = (Z.of_nat ii * 10 / total * 10)%Z).
      { intros p. rewrite Hmem. unfold decile. split.
        - intros [Hp | (i & Hi & Hpi & _)]; [by apply elem_of_nil in Hp |].
          exists i. split; [lia | assumption].
        - intros (ii & Hii & Hp). right. exists ii.
          repeat split; try lia; try assumption.
          assert ((0 <= Z.of_nat ii * 10 / total)%Z)
            by (apply Z.div_le_lower_bound; lia).
          lia. }
      exists idx, msgs. repeat split; try assumption; try apply Hall.
      apply Forall_forall. intros p Hp.
      apply Hall in Hp as (ii & Hii & ->).
      assert ((0 <= Z.of_nat ii * 10 / total)%Z)
        by (apply Z.div_le_lower_bound; lia).
      assert ((Z.of_nat ii * 10 / total < 10)%Z)
        by (apply Z.div_lt_upper_bound; unfold total; lia).
      lia.
Qed.

(** ** The operators [Jvec] and [Jtvec] *)

Lemma foldr_sum_init (l : list nat) (f : nat -> R) (c : R) :
  foldr (fun k acc => f k + acc) c l = foldr (fun k acc => f k + acc) 0 l + c.
Proof.
  induction l as [| k l IH]; cbn [foldr]; [lra |]. rewrite IH. lra.
Qed.

Lemma big_sum_S (n : nat) (f : nat -> R) :
  big_sum (S n) f = big_sum n f + f n.
Proof.
  unfold big_sum. rewrite seq_S, foldr_app. cbn [foldr Nat.add].
  rewrite foldr_sum_init. lra.
Qed.

Lemma big_sum_plus (n : nat) (f g : nat -> R) :
  big_sum n (fun k => f k + g k) = big_sum n f + big_sum n g.
Proof.
  induction n as [| n IH]; [unfold big_sum; cbn; lra |].
  rewrite !big_sum_S, IH. lra.
Qed.

Lemma big_sum_mult_l (n : nat) (f : nat -> R) (c : R) :
  c * big_sum n f = big_sum n (fun k => c * f k).
Proof.
  induction n as [| n IH]; [unfold big_sum; cbn; lra |].
  rewrite !big_sum_S, <- IH. lra.
Qed.

Lemma big_sum_mult_r (n : nat) (f : nat -> R) (c : R) :
  big_sum n f * c = big_sum n (fun k => f k * c).
Proof.
  induction n as [| n IH]; [unfold big_sum; cbn; lra |].
  rewrite !big_sum_S, <- IH. lra.
Qed.

Lemma big_sum_swap (n m : nat) (f : nat -> nat -> R) :
  big_sum n (fun i => big_sum m (fun j => f i j)) =
  big_sum m (fun j => big_sum n (fun i => f i j)).
Proof.
  induction n as [| n IH].
  - change (big_sum 0 (fun i => big_sum m (fun j => f i j))) with 0.
    symmetry. apply foldr_sum_zero. reflexivity.
  - rewrite big_sum_S, IH, <- big_sum_plus.
    apply big_sum_ext. intros j _. by rewrite big_sum_S.
Qed.

Lemma inner_cons (a b : R) (u v : vec) :
  inner (a :: u) (b :: v) = a * b + inner u v.
Proof. reflexivity. Qed.

Lemma big_sum_shift (n : nat) (f : nat -> R) :
  big_sum (S n) f = f 0%nat + big_sum n (fun k => f (S k)).
Proof.
  unfold big_sum. cbn [seq foldr]. f_equal.
  rewrite <- fmap_S_seq. generalize (seq 0 n). intros l.
  induction l as [| k l IH]; [reflexivity |].
  cbn [fmap list_fmap foldr]. by rewrite <- IH.
Qed.

(** The inner product of two vectors of one length, as a sum over the
    indices. *)
Lemma inner_big_sum (u : vec) :
  forall v : vec,
    length u = length v ->
    inner u v = big_sum (length u) (fun i => nth i u 0 * nth i v 0).
Proof.
  induction u as [| a u IH]; intros [| b v] Hlen; try discriminate.
  - reflexivity.
  - cbn [length]. rewrite big_sum_shift, inner_cons, IH by (cbn in Hlen; lia).
    reflexivity.
Qed.

Lemma nth_fmap_seq (f : nat -> R) (n i : nat) :
  (i < n)%nat -> nth i (f <$> seq 0 n) 0 = f i.
Proof.
  intros Hi. rewrite nth_lookup, list_lookup_fmap, lookup_seq_lt by lia.
  reflexivity.
Qed.

Lemma nth_fmap_rows (f : vec -> R) (rows : matrix) (r : nat) :
  (r < length rows)%nat -> nth r (f <$> rows) 0 = f (nth r rows []).
Proof.
  intros Hr. rewrite !nth_lookup, list_lookup_fmap.
  destruct (rows !! r) as [row |] eqn:Hrow; [reflexivity |].
  apply lookup_ge_None in Hrow. lia.
Qed.

Lemma mat_vec_ok (G : matrix) (m : vec) :
  Forall (fun row => length row = length m) G ->
  mat_vec G m = Ok ((fun row => inner row m) <$> G).
Proof.
  intros Hlen. unfold mat_vec.
  assert (Hall : forallb (fun r => Nat.eqb (length r) (length m)) G = true).
  { induction Hlen as [| row G Hrow _ IH]; [reflexivity |].
    cbn [forallb]. rewrite Hrow, Nat.eqb_refl. exact IH. }
  by rewrite Hall.
Qed.

(** The transpose of a matrix with at least one row and rows of length
    [n]: [n] rows, row [j] being column [j] of the matrix. *)
Lemma transpose_lookup (M : matrix) (n : nat) :
  M <> [] -> Forall (fun r => length r = n) M ->
  length (transpose M) = n /\
  forall j : nat,
    (j < n)%nat -> transpose M !! j = Some ((fun r => nth j r 0) <$> M).
Proof.
  induction M as [| r M IH]; intros HM Hlen; [done |].
  apply Forall_cons in Hlen as [Hr Hrest].
  destruct M as [| r' M].
  - cbn [transpose]. split; [by rewrite length_fmap |].
    intros j Hj. rewrite list_lookup_fmap, (lookup_nth r j) by lia.
    reflexivity.
  - destruct (IH ltac:(discriminate) Hrest) as [IHlen IHrow].
    change (transpose (r :: r' :: M))
      with (zip_with cons r (transpose (r' :: M))).
    split; [rewrite length_zip_with; lia |].
    intros j Hj.
    rewrite lookup_zip_with, (lookup_nth r j), (IHrow j) by lia.
    reflexivity.
Qed.

Lemma transpose_rows_length (M : matrix) (n : nat) :
  M <> [] -> Forall (fun r => length r = n) M ->
  Forall (fun c => length c = length M) (transpose M).
Proof.
  intros HM Hlen. destruct (transpose_lookup M n HM Hlen) as [Hn Hrow].
  apply Forall_lookup. intros j c Hc.
  assert (Hj : (j < n)%nat) by (rewrite <- Hn; by eapply lookup_lt_Some).
  rewrite (Hrow j Hj) in Hc. apply (inj Some) in Hc as <-.
  by rewrite length_fmap.
Qed.

Lemma triple_sum_adjoint (k n c : nat) (Gf Df : nat -> nat -> R)
    (vf uf : nat -> R) :
  big_sum k (fun r =>
    big_sum n (fun i => Gf r i * big_sum c (fun q => Df i q * vf q)) * uf r) =
  big_sum c (fun q =>
    vf q * big_sum n (fun i => Df i q * big_sum k (fun r => Gf r i * uf r))).
Proof.
  transitivity
    (big_sum k (fun r => big_sum n (fun i => big_sum c (fun q =>
       Gf r i * Df i q * vf q * uf r)))).
  { apply big_sum_ext. intros r _. rewrite big_sum_mult_r.
    apply big_sum_ext. intros i _.
    rewrite big_sum_mult_l, big_sum_mult_r.
    apply big_sum_ext. intros q _. ring. }
  transitivity
    (big_sum c (fun q => big_sum n (fun i => big_sum k (fun r =>
       Gf r i * Df i q * vf q * uf r)))).
  { rewrite big_sum_swap.
    transitivity
      (big_sum n (fun i => big_sum c (fun q => big_sum k (fun r =>
         Gf r i * Df i q * vf q * uf r)))).
    - apply big_sum_ext. intros i _. apply big_sum_swap.
    - apply big_sum_swap. }
  apply big_sum_ext. intros q _. rewrite big_sum_mult_l.
  apply big_sum_ext. intros i _. rewrite big_sum_mult_l, big_sum_mult_l.
  apply big_sum_ext. intros r _. ring.
Qed.

Lemma sp_matvec_ok (A : spmatrix) (v : vec) :
  ncols A = length v ->
  sp_matvec A v =
  Ok ((fun i => big_sum (ncols A) (fun k => entry A i k * nth k v 0))
        <$> seq 0 (nrows A)).
Proof. intros Hv. unfold sp_matvec. by rewrite decide_True. Qed.

(** [(G (D v)) . u = v . (D^T (G^T u))] for a matrix [G] with at least
    one row and rows as long as [D] has rows. *)
Lemma products_adjoint (rows : matrix) (D : spmatrix) (v u x : vec) :
  rows <> [] ->
  Forall (fun row => length row = nrows D) rows ->
  length v = ncols D ->
  length u = length rows ->
  sp_matvec D v = Ok x ->
  exists y t z : vec,
    mat_vec rows x = Ok y /\
    mat_vec (transpose rows) u = Ok t /\
    sp_matvec (sp_T D) t = Ok z /\
    inner y u = inner v z.
Proof.
  intros Hrows Hlen Hv Hu Hx.
  rewrite sp_matvec_ok in Hx by done. apply Ok_inj in Hx.
  assert (Hxlen : length x = nrows D)
    by (rewrite <- Hx, length_fmap; apply length_seq).
  destruct (transpose_lookup rows (nrows D) Hrows Hlen) as [Htlen Htrow].
  eexists _, _, _. split; [| split; [| split]].
  - apply mat_vec_ok. eapply Forall_impl; [exact Hlen |].
    cbn. intros row Hrow. congruence.
  - apply mat_vec_ok.
    eapply Forall_impl; [exact (transpose_rows_length _ _ Hrows Hlen) |].
    cbn. intros col Hcol. congruence.
  - apply sp_matvec_ok. cbn [ncols sp_T]. by rewrite length_fmap.
  - rewrite (inner_big_sum _ u) by (by rewrite length_fmap).
    rewrite (inner_big_sum v)
      by (rewrite length_fmap, length_seq; cbn [nrows sp_T]; done).
    rewrite length_fmap, Hv. cbn [ncols nrows sp_T entry].
    etransitivity;
      [| etransitivity;
         [exact (triple_sum_adjoint (length rows) (nrows D) (ncols D)
                   (fun r i => nth i (nth r rows []) 0) (entry D)
                   (fun q => nth q v 0) (fun r => nth r u 0)) |]].
    + apply big_sum_ext. intros r Hr. f_equal.
      rewrite nth_fmap_rows by done.
      assert (Hrow : length (nth r rows []) = nrows D).
      { rewrite Forall_lookup in Hlen.
        destruct (rows !! r) as [row |] eqn:Hrr.
        - rewrite nth_lookup, Hrr. cbn. by eapply Hlen.
        - apply lookup_ge_None in Hrr. lia. }
      rewrite inner_big_sum by congruence. rewrite Hrow.
      apply big_sum_ext. intros i Hi. f_equal.
      rewrite <- Hx. by rewrite nth_fmap_seq.
    + apply big_sum_ext. intros q Hq. f_equal.
      rewrite nth_fmap_seq by done.
      apply big_sum_ext. intros i Hi. f_equal.
      rewrite nth_lookup, list_lookup_fmap, (Htrow i Hi). cbn [fmap option_fmap option_map default from_option].
      rewrite inner_big_sum by (rewrite length_fmap; lia).
      rewrite length_fmap.
      apply big_sum_ext. intros r Hr. f_equal.
      by rewrite nth_fmap_rows.
Qed.

Lemma length_foldl_vadd (rs : matrix) :
  forall acc : vec,
    Forall (fun r => length r = length acc) rs ->
    length (foldl vadd acc rs) = length acc.
Proof.
  induction rs as [| r rs IH]; intros acc Hlen; [reflexivity |].
  apply Forall_cons in Hlen as [Hr Hrs]. cbn [foldl].
  assert (Hacc : length (vadd acc r) = length acc)
    by (unfold vadd; rewrite length_zip_with; lia).
  rewrite IH; [exact Hacc |].
  eapply Forall_impl; [exact Hrs |]. cbn. intros r' Hr'. congruence.
Qed.

Lemma length_colSumSquares (G : matrix) (n : nat) :
  G <> [] -> Forall (fun r => length r = n) G ->
  length (colSumSquares G) = n.
Proof.
  intros HG Hlen. destruct G as [| r rs]; [done |].
  apply Forall_cons in Hlen as [Hr Hrs].
  unfold colSumSquares, sum_axis0. cbn [fmap list_fmap].
  rewrite length_foldl_vadd; unfold vsq; rewrite length_fmap; [assumption |].
  apply Forall_fmap. eapply Forall_impl; [exact Hrs |].
  cbn. intros r' Hr'. rewrite length_fmap. congruence.
Qed.

(** The squared norm of the column [j] of a matrix scaled by [a]. *)
Lemma inner_scaled_column (rows : matrix) (f : vec -> R) (j : nat) (a : R) :
  (forall row, row ∈ rows -> f row = nth j row 0 * a) ->
  inner (f <$> rows) (f <$> rows) = column_sum_of_squares rows j * a ^ 2.
Proof.
  unfold column_sum_of_squares.
  induction rows as [| row rows IH]; intros Hf.
  - cbn. lra.
  - cbn [fmap list_fmap foldr]. rewrite inner_cons.
    rewrite IH by (intros r Hr; apply Hf; by apply list_elem_of_further).
    rewrite (Hf row) by apply list_elem_of_here. ring.
Qed.

Lemma nth_unit_vec (n j k : nat) :
  nth k (unit_vec n j) 0 =
  (if decide (k = j) then (if decide (k < n)%nat then 1 else 0) else 0).
Proof.
  unfold unit_vec. destruct (decide (k < n)%nat) as [Hk | Hk].
  - by rewrite nth_fmap_seq.
  - rewrite nth_overflow by (rewrite length_fmap, length_seq; lia).
    by case_decide.
Qed.

Section Sensitivity.
Import GravityIntegral Operators.

(** X11: [Jtvec] is the adjoint of [Jvec].  Once [G] is built, with rows
    as long as the derivative of the map has rows, and for vectors that
    the casts to single precision leave as they are, both calls succeed,
    change neither the instance nor the world, and
    [Jvec(m, v) . u = v . Jtvec(m, u)]. *)
Theorem Jvec_Jtvec_adjoint (fuel : nat) (h : host) (float32 : R -> R)
    (self : t) (w : world) (g : array) (rows : matrix) (m v u : vec) :
  ispaired self = true -> _G self = Some g -> contents w g = Some rows ->
  rows <> [] ->
  Forall (fun row => length row = nrows (rhoMap_deriv self m)) rows ->
  length v = ncols (rhoMap_deriv self m) ->
  length u = length rows ->
  (forall x : vec,
      sp_matvec (rhoMap_deriv self m) v = Ok x -> float32 <$> x = x) ->
  float32 <$> u = u ->
  exists y z : vec,
    Jvec fuel h float32 m v self w = Some (Ok y, self, w) /\
    Jtvec fuel h float32 m u self w = Some (Ok z, self, w) /\
    inner y u = inner v z.
Proof.
  intros Hp HG Hrows Hne Hlen Hv Hu Hcastx Hcastu.
  destruct (sp_matvec (rhoMap_deriv self m) v) as [x | e] eqn:Hx;
    [| rewrite sp_matvec_ok in Hx by done; discriminate].
  destruct (products_adjoint rows _ v u x Hne Hlen Hv Hu Hx)
    as (y & t' & z & Hy & Ht & Hz & Hadj).
  exists y, z. split; [| split; [| exact Hadj]].
  - unfold Jvec, bind, get, lift, read.
    rewrite (G_cached fuel h self w g Hp HG), Hx, Hrows.
    rewrite (Hcastx x eq_refl), Hy. reflexivity.
  - unfold Jtvec, bind, get, lift, read.
    rewrite (G_cached fuel h self w g Hp HG), Hrows.
    rewrite Hcastu, Ht, Hz. reflexivity.
Qed.

Lemma Jvec_Jtvec_adjoint_witness :
  exists y z : vec,
    Jvec 0 host0 (fun x => x) [1] [2] cell_problem_after world0
    = Some (Ok y, cell_problem_after, world0) /\
    Jtvec 0 host0 (fun x => x) [1] [3] cell_problem_after world0
    = Some (Ok z, cell_problem_after, world0) /\
    inner y [3] = inner [2] z.
Proof.
  apply (Jvec_Jtvec_adjoint 0 host0 (fun x => x) cell_problem_after world0
           (InMemory [cell_row]) [cell_row] [1] [2] [3]);
    try reflexivity; try discriminate.
  - repeat constructor.
  - intros x _. apply list_fmap_id.
Defined.

(** X12: the diagonal of [J^T J].  Take an instance whose [G] is built
    and whose [gtgdiag] is not set yet or holds the column sums of
    squares of [G], a model [m] at which the derivative of the map is a
    square diagonal matrix, and a column [j] such that the cast to
    single precision in [Jvec] leaves [dMap(m) * e_j] as it is.  Then
    [getJtJdiag(m)] and [Jvec(m, e_j)] succeed without changing the
    world, and entry [j] of [getJtJdiag(m)] is the squared norm of
    [Jvec(m, e_j)], the column [j] of [J = G * dMap(m)]. *)
Theorem getJtJdiag_diagonal_map (fuel : nat) (h : host) (float32 : R -> R)
    (self : t) (w : world) (g : array) (rows : matrix) (m : vec)
    (W : option spmatrix) (j : nat) :
  ispaired self = true -> _G self = Some g -> contents w g = Some rows ->
  gtgdiag self = None \/ gtgdiag self = Some (colSumSquares rows) ->
  rows <> [] ->
  Forall (fun row => length row = nrows (rhoMap_deriv self m)) rows ->
  ncols (rhoMap_deriv self m) = nrows (rhoMap_deriv self m) ->
  (forall i k : nat, i <> k -> entry (rhoMap_deriv self m) i k = 0) ->
  (j < nrows (rhoMap_deriv self m))%nat ->
  (forall x : vec,
      sp_matvec (rhoMap_deriv self m)
        (unit_vec (ncols (rhoMap_deriv self m)) j) = Ok x ->
      float32 <$> x = x) ->
  exists (d y : vec) (self1 : t),
    getJtJdiag fuel h m W self w = Some (Ok d, self1, w) /\
    Jvec fuel h float32 m (unit_vec (ncols (rhoMap_deriv self m)) j) self w
    = Some (Ok y, self, w) /\
    d !! j = Some (inner y y).
Proof.
  intros Hp HG Hrows Hd Hne Hlen Hsq Hdiag Hj Hcast.
  set (D := rhoMap_deriv self m) in *.
  set (n := nrows D) in *.
  set (c := colSumSquares rows).
  assert (Hc : length c = n) by (by apply length_colSumSquares).
  (* getJtJdiag *)
  assert (HP : exists P, sp_mul (sdiag (vsqrt c)) D = Ok P /\
                         nrows P = n /\ ncols P = ncols D).
  { unfold sp_mul. rewrite decide_True
      by (cbn [ncols sdiag]; rewrite length_vsqrt; exact Hc).
    eexists. split; [reflexivity |].
    cbn [nrows ncols sdiag]. by rewrite length_vsqrt. }
  destruct HP as (P & HP & HPr & HPc).
  (* Jvec *)
  destruct (sp_matvec D (unit_vec (ncols D) j)) as [x | e] eqn:Hx;
    [| rewrite sp_matvec_ok in Hx
         by (unfold unit_vec; by rewrite length_fmap, length_seq);
       discriminate].
  assert (Hxj : forall i : nat,
             (i < n)%nat -> nth i x 0 = if decide (i = j) then entry D j j else 0).
  { intros i Hi.
    rewrite sp_matvec_ok in Hx
      by (unfold unit_vec; by rewrite length_fmap, length_seq).
    apply Ok_inj in Hx. rewrite <- Hx, nth_fmap_seq by exact Hi.
    rewrite (big_sum_single _ _ j) by
      (try (rewrite Hsq; exact Hj);
       intros k _ Hk; rewrite nth_unit_vec, decide_False by exact Hk; lra).
    rewrite nth_unit_vec, decide_True, decide_True
      by (reflexivity || (rewrite Hsq; exact Hj)).
    case_decide as Hij; [subst i; lra |].
    rewrite Hdiag by exact Hij. lra. }
  assert (Hxlen : length x = n).
  { rewrite sp_matvec_ok in Hx
      by (unfold unit_vec; by rewrite length_fmap, length_seq).
    apply Ok_inj in Hx. rewrite <- Hx, length_fmap. apply length_seq. }
  assert (Hy : mat_vec rows x = Ok ((fun row => inner row x) <$> rows)).
  { apply mat_vec_ok. eapply Forall_impl; [exact Hlen |].
    cbn. intros row Hrow. congruence. }
  assert (Hrun : exists self1 : t,
             getJtJdiag fuel h m W self w =
             Some (Ok (sp_sum_axis0 (sp_power2 P)), self1, w)).
  { destruct Hd as [Hd | Hd].
    - eexists. rewrite getJtJdiag_fresh by exact Hd.
      rewrite (G_cached fuel h (set_model (Some m) self) w g) by assumption.
      rewrite Hrows. unfold JtJdiag_of. fold D. fold c. rewrite HP.
      reflexivity.
    - eexists. rewrite (getJtJdiag_cached _ _ _ _ _ _ _ Hd).
      unfold JtJdiag_of. fold D. fold c. rewrite HP. reflexivity. }
  destruct Hrun as (self1 & Hrun).
  exists (sp_sum_axis0 (sp_power2 P)), ((fun row => inner row x) <$> rows),
    self1.
  split; [exact Hrun | split].
  - unfold Jvec, bind, get, lift, read.
    rewrite (G_cached fuel h self w g Hp HG). fold D. rewrite Hx, Hrows.
    rewrite (Hcast x eq_refl), Hy. reflexivity.
  - unfold sp_sum_axis0. cbn [nrows ncols entry sp_power2].
    rewrite HPr, HPc, Hsq.
    rewrite list_lookup_fmap, lookup_seq_lt by exact Hj.
    cbn [fmap option_fmap option_map Nat.add]. f_equal.
    rewrite (big_sum_single _ _ j); [| exact Hj |].
    + rewrite (sdiag_mul_entry _ _ _ j j HP)
        by (rewrite length_vsqrt, Hc; exact Hj).
      rewrite nth_vsqrt.
      assert (Hcj : nth j c 0 = column_sum_of_squares rows j).
      { pose proof (colSumSquares_lookup rows n j Hne Hlen Hj) as Hl.
        fold c in Hl. rewrite nth_lookup, Hl. reflexivity. }
      assert (Hpos : 0 <= nth j c 0).
      { pose proof (colSumSquares_nonneg rows) as Hnn. fold c in Hnn.
        rewrite Forall_forall in Hnn.
        apply Hnn, list_elem_of_In, nth_In. lia. }
      rewrite Rpow_mult_distr, pow2_sqrt by exact Hpos. rewrite Hcj.
      symmetry. apply inner_scaled_column.
      intros row Hrow.
      assert (Hrl : length row = n)
        by (rewrite Forall_forall in Hlen; by apply Hlen).
      rewrite inner_big_sum by congruence. rewrite Hrl.
      rewrite (big_sum_single _ _ j); [| exact Hj |].
      * rewrite Hxj by exact Hj. by rewrite decide_True.
      * intros i Hi Hij. rewrite Hxj by exact Hi.
        rewrite decide_False by exact Hij. lra.
    + intros i Hi Hij.
      rewrite (sdiag_mul_entry _ _ _ i j HP)
        by (rewrite length_vsqrt, Hc; exact Hi).
      rewrite Hdiag by exact Hij. ring.
Qed.

Lemma getJtJdiag_diagonal_map_witness :
  exists (d y : vec) (self1 : t),
    getJtJdiag 0 host0 [1] None
      (set_G (Some (InMemory [cell_row])) cell_problem_id) world0
    = Some (Ok d, self1, world0) /\
    Jvec 0 host0 (fun x => x) [1] (unit_vec 1 0)
      (set_G (Some (InMemory [cell_row])) cell_problem_id) world0
    = Some (Ok y, set_G (Some (InMemory [cell_row])) cell_problem_id, world0) /\
    d !! 0%nat = Some (inner y y).
Proof.
  apply (getJtJdiag_diagonal_map 0 host0 (fun x => x)
           (set_G (Some (InMemory [cell_row])) cell_problem_id) world0
           (InMemory [cell_row]) [cell_row] [1] None 0);
    try reflexivity; try discriminate.
  - left. reflexivity.
  - repeat constructor.
  - intros i k Hik. cbn [rhoMap_deriv set_G cell_problem_id cell_problem
                         IdentityMap_deriv sdiag entry].
    by rewrite decide_False.
  - cbn. lia.
  - intros x _. apply list_fmap_id.
Defined.

End Sensitivity.

(** ** The geometry of [Intrgl_Fwr_Op] *)

Lemma projector_ok (n : nat) (inds : list Z) :
  Forall (fun i => (0 <= i < Z.of_nat n)%Z) inds ->
  projector n inds =
  Ok (SpMatrix n (length inds)
        (fun i j => if decide (inds !! j = Some (Z.of_nat i)) then 1 else 0)).
Proof.
  intros Hin. unfold projector.
  assert (H1 : existsb (fun i => (Z.of_nat n <=? i)%Z) inds = false).
  { induction Hin as [| i inds Hi _ IH]; [reflexivity |].
    cbn [existsb]. rewrite IH. rewrite (proj2 (Z.leb_gt _ _)) by lia.
    reflexivity. }
  assert (H2 : existsb (fun i => (i <? 0)%Z) inds = false).
  { clear H1. induction Hin as [| i inds Hi _ IH]; [reflexivity |].
    cbn [existsb]. rewrite IH. rewrite (proj2 (Z.ltb_ge _ _)) by lia.
    reflexivity. }
  by rewrite H1, H2.
Qed.

(** [P.T * arr] picks the rows of [arr] at the indices, in their
    order. *)
Lemma sp_mul_arr_projector (n : nat) (inds : list Z) (arr : list (R * R))
    (P : spmatrix) :
  Forall (fun i => (0 <= i < Z.of_nat n)%Z) inds ->
  projector n inds = Ok P -> length arr = n ->
  sp_mul_arr (sp_T P) arr = Ok (gather inds arr).
Proof.
  intros Hin HP Harr. rewrite projector_ok in HP by exact Hin.
  apply Ok_inj in HP. subst P.
  unfold sp_mul_arr. cbn [ncols nrows sp_T entry].
  rewrite decide_True by done. f_equal. unfold gather.
  apply list_eq. intros j.
  rewrite !list_lookup_fmap.
  destruct (inds !! j) as [i |] eqn:Hj.
  - rewrite lookup_seq_lt by (by eapply lookup_lt_Some).
    cbn [fmap option_fmap option_map Nat.add]. rewrite Hj. f_equal.
    rewrite Forall_lookup in Hin. specialize (Hin j i Hj).
    assert (Hsingle : forall g : R * R -> R,
               big_sum n (fun i0 =>
                 (if decide (Some i = Some (Z.of_nat i0)) then 1 else 0) *
                 g (nth i0 arr (0, 0))) = g (nth (Z.to_nat i) arr (0, 0))).
    { intros g. rewrite (big_sum_single _ _ (Z.to_nat i)) by
        (try lia; intros k _ Hk;
         rewrite decide_False by (intros [= ->]; lia); lra).
      rewrite decide_True by (f_equal; lia). lra. }
    rewrite (Hsingle fst), (Hsingle snd).
    by destruct (nth (Z.to_nat i) arr (0, 0)).
  - rewrite lookup_seq_ge by (by apply lookup_ge_None).
    reflexivity.
Qed.

Lemma gather_range (n : nat) (arr : list (R * R)) :
  length arr = n -> gather (Z.of_nat <$> seq 0 n) arr = arr.
Proof.
  intros Hlen. unfold gather. apply list_eq. intros j.
  rewrite !list_lookup_fmap.
  destruct (arr !! j) as [x |] eqn:Hj.
  - rewrite lookup_seq_lt by (rewrite <- Hlen; by eapply lookup_lt_Some).
    cbn [fmap option_fmap option_map Nat.add]. f_equal.
    rewrite Nat2Z.id, nth_lookup, Hj. reflexivity.
  - rewrite lookup_seq_ge by (rewrite <- Hlen; by apply lookup_ge_None).
    reflexivity.
Qed.

Lemma range_in_range (n : nat) :
  Forall (fun i => (0 <= i < Z.of_nat n)%Z) (Z.of_nat <$> seq 0 n).
Proof.
  apply Forall_fmap, Forall_forall. intros i Hi.
  apply elem_of_seq in Hi. cbn. lia.
Qed.

(** The indices of a mask, counted from [s]. *)
Lemma mask_inds_from (arr : list (R * R)) (elems : list bool) :
  forall s : nat,
    (s + length elems <= length arr)%nat ->
    (fun i => nth (Z.to_nat (Z.of_nat i - 1)) arr (0, 0))
      <$> (fst <$> filter (fun p => snd p = true)
                     (zip (seq (S s) (length elems)) elems))
    = snd <$> filter (fun p => fst p = true) (zip elems (drop s arr)).
Proof.
  induction elems as [| e elems IH]; intros s Hlen; [reflexivity |].
  cbn [length] in Hlen.
  destruct (arr !! s) as [x |] eqn:Hs;
    [| apply lookup_ge_None in Hs; lia].
  rewrite (drop_S _ _ _ Hs).
  cbn [length seq zip zip_with]. rewrite !filter_cons. cbn [fst snd].
  specialize (IH (S s) ltac:(lia)).
  destruct e.
  - rewrite decide_True by reflexivity. cbn [fmap list_fmap fst snd].
    rewrite decide_True by reflexivity. cbn [fmap list_fmap fst snd].
    f_equal; [| exact IH].
    replace (Z.to_nat (Z.of_nat (S s) - 1)) with s by lia.
    rewrite nth_lookup, Hs. reflexivity.
  - rewrite decide_False by discriminate.
    rewrite decide_False by discriminate. exact IH.
Qed.

Lemma gather_mask (elems : list bool) (arr : list (R * R)) :
  (length elems <= length arr)%nat ->
  gather (mask_inds elems) arr = select elems arr.
Proof.
  intros Hlen. unfold gather, mask_inds, select.
  rewrite <- list_fmap_compose.
  exact (mask_inds_from arr elems 0 Hlen).
Qed.

Lemma mask_inds_in_range (n : nat) (elems : list bool) :
  (length elems <= n)%nat ->
  Forall (fun i => (0 <= i < Z.of_nat n)%Z) (mask_inds elems).
Proof.
  intros Hlen. unfold mask_inds.
  apply Forall_fmap, Forall_fmap, Forall_forall. intros [i e] Hp.
  apply list_elem_of_filter in Hp as [_ Hp].
  apply elem_of_zip_l in Hp. cbn [fst] in Hp.
  apply elem_of_seq in Hp. cbn. lia.
Qed.

(** A list made of [n] blocks of [m] entries. *)
Lemma length_bind_blocks {A : Type} (f : nat -> list A) (m : nat) :
  (forall i, length (f i) = m) ->
  forall n s : nat, length (seq s n ≫= f) = (n * m)%nat.
Proof.
  intros Hf. induction n as [| n IH]; intros s; [reflexivity |].
  cbn [seq]. rewrite bind_cons, length_app, Hf, IH. lia.
Qed.

Lemma lookup_bind_blocks {A : Type} (f : nat -> list A) (m : nat) :
  (forall i, length (f i) = m) ->
  forall n s i j : nat,
    (i < n)%nat -> (j < m)%nat ->
    (seq s n ≫= f) !! (i * m + j)%nat = f (s + i)%nat !! j.
Proof.
  intros Hf. induction n as [| n IH]; intros s i j Hi Hj; [lia |].
  cbn [seq]. rewrite bind_cons. destruct i as [| i].
  - rewrite lookup_app_l by (rewrite Hf; lia).
    by rewrite Nat.add_0_r.
  - cbn [Nat.mul]. rewrite lookup_app_r by (rewrite Hf; lia).
    rewrite Hf.
    replace (m + i * m + j - m)%nat with (i * m + j)%nat by lia.
    rewrite IH by lia.
    by replace (S s + i)%nat with (s + S i)%nat by lia.
Qed.

Lemma length_mkvc3 (A : array3) :
  length (mkvc3 A) =
  (length A * length (nth 0 A []) * length (nth 0 (nth 0 A []) []))%nat.
Proof.
  unfold mkvc3.
  rewrite (length_bind_blocks _ (length (nth 0 A []) * length A)).
  - lia.
  - intros c. rewrite (length_bind_blocks _ (length A)); [reflexivity |].
    intros b. rewrite (length_bind_blocks _ 1); [lia | reflexivity].
Qed.

(** The entry [[a][b][c]] of an array is at the place
    [a + n1 * (b + n2 * c)] of the flattened array. *)
Lemma lookup_mkvc3 (A : array3) (a b c : nat) :
  (a < length A)%nat -> (b < length (nth 0 A []))%nat ->
  (c < length (nth 0 (nth 0 A []) []))%nat ->
  mkvc3 A !! (a + length A * (b + length (nth 0 A []) * c))%nat
  = Some (at3 A a b c).
Proof.
  intros Ha Hb Hc. unfold mkvc3.
  set (n1 := length A) in *. set (n2 := length (nth 0 A [])) in *.
  replace (a + n1 * (b + n2 * c))%nat
    with (c * (n2 * n1) + (b * n1 + (a * 1 + 0)))%nat by lia.
  rewrite (lookup_bind_blocks _ (n2 * n1)); [| | exact Hc | nia].
  - rewrite (lookup_bind_blocks _ n1); [| | exact Hb | lia].
    + rewrite (lookup_bind_blocks _ 1); [reflexivity | reflexivity | exact Ha | lia].
    + intros i. rewrite (length_bind_blocks _ 1); [lia | reflexivity].
  - intros i. rewrite (length_bind_blocks _ n1); [reflexivity |].
    intros i'. rewrite (length_bind_blocks _ 1); [lia | reflexivity].
Qed.

Lemma nth_fmap_lt {A B : Type} (f : A -> B) (l : list A) (i : nat)
    (d : B) (x : A) :
  l !! i = Some x -> nth i (f <$> l) d = f x.
Proof.
  intros Hx. by rewrite nth_lookup, list_lookup_fmap, Hx.
Qed.

(** The shape and the entries of the arrays of [np.meshgrid]. *)
Lemma meshgrid_shape (x1 x2 x3 : vec) (A : array3) :
  A = (meshgrid x1 x2 x3).1.1 \/ A = (meshgrid x1 x2 x3).1.2 \/
  A = (meshgrid x1 x2 x3).2 ->
  (length A * length (nth 0 A []) * length (nth 0 (nth 0 A []) []))%nat
  = (length x2 * length x1 * length x3)%nat.
Proof.
  intros HA. assert (Hlen : length A = length x2)
    by (destruct HA as [-> | [-> | ->]]; cbn [meshgrid fst snd];
        by rewrite length_fmap).
  destruct x2 as [| v2 x2]; [cbn [length] in *; lia |].
  assert (Hrow : length (nth 0 A []) = length x1)
    by (destruct HA as [-> | [-> | ->]]; cbn [meshgrid fst snd fmap list_fmap nth];
        by rewrite length_fmap).
  destruct x1 as [| v1 x1]; [cbn [length] in *; lia |].
  assert (Hcol : length (nth 0 (nth 0 A []) []) = length x3)
    by (destruct HA as [-> | [-> | ->]];
        cbn [meshgrid fst snd fmap list_fmap nth];
        rewrite ?length_fmap; reflexivity).
  by rewrite Hlen, Hrow, Hcol.
Qed.

Lemma meshgrid_lookup (x1 x2 x3 : vec) (a b c : nat) (v1 v2 v3 : R) :
  x1 !! b = Some v1 -> x2 !! a = Some v2 -> x3 !! c = Some v3 ->
  let n := (a + length x2 * (b + length x1 * c))%nat in
  mkvc3 (meshgrid x1 x2 x3).1.1 !! n = Some v1 /\
  mkvc3 (meshgrid x1 x2 x3).1.2 !! n = Some v2 /\
  mkvc3 (meshgrid x1 x2 x3).2 !! n = Some v3.
Proof.
  intros H1 H2 H3 n. subst n.
  pose proof (lookup_lt_Some _ _ _ H1) as Hb.
  pose proof (lookup_lt_Some _ _ _ H2) as Ha.
  pose proof (lookup_lt_Some _ _ _ H3) as Hc.
  destruct (x2 !! 0%nat) as [w2 |] eqn:H20;
    [| apply lookup_ge_None in H20; lia].
  destruct (x1 !! 0%nat) as [w1 |] eqn:H10;
    [| apply lookup_ge_None in H10; lia].
  cbn [meshgrid fst snd].
  repeat split.
  - set (A := (fun _ => (fun y => (fun _ => y) <$> x3) <$> x1) <$> x2).
    assert (Hn1 : length A = length x2) by apply length_fmap.
    assert (Hn2 : length (nth 0 A []) = length x1)
      by (unfold A; rewrite (nth_fmap_lt _ _ _ _ _ H20); apply length_fmap).
    assert (Hn3 : length (nth 0 (nth 0 A []) []) = length x3)
      by (unfold A; rewrite (nth_fmap_lt _ _ _ _ _ H20),
            (nth_fmap_lt _ _ _ _ _ H10); apply length_fmap).
    rewrite <- Hn1, <- Hn2, lookup_mkvc3 by lia. f_equal.
    unfold at3, A.
    rewrite (nth_fmap_lt _ _ _ _ _ H2), (nth_fmap_lt _ _ _ _ _ H1),
      (nth_fmap_lt _ _ _ _ _ H3). reflexivity.
  - set (A := (fun x => (fun _ => (fun _ => x) <$> x3) <$> x1) <$> x2).
    assert (Hn1 : length A = length x2) by apply length_fmap.
    assert (Hn2 : length (nth 0 A []) = length x1)
      by (unfold A; rewrite (nth_fmap_lt _ _ _ _ _ H20); apply length_fmap).
    assert (Hn3 : length (nth 0 (nth 0 A []) []) = length x3)
      by (unfold A; rewrite (nth_fmap_lt _ _ _ _ _ H20),
            (nth_fmap_lt _ _ _ _ _ H10); apply length_fmap).
    rewrite <- Hn1, <- Hn2, lookup_mkvc3 by lia. f_equal.
    unfold at3, A.
    rewrite (nth_fmap_lt _ _ _ _ _ H2), (nth_fmap_lt _ _ _ _ _ H1),
      (nth_fmap_lt _ _ _ _ _ H3). reflexivity.
  - set (A := (fun _ => (fun _ => x3) <$> x1) <$> x2).
    assert (Hn1 : length A = length x2) by apply length_fmap.
    assert (Hn2 : length (nth 0 A []) = length x1)
      by (unfold A; rewrite (nth_fmap_lt _ _ _ _ _ H20); apply length_fmap).
    assert (Hn3 : length (nth 0 (nth 0 A []) []) = length x3)
      by (unfold A; rewrite (nth_fmap_lt _ _ _ _ _ H20),
            (nth_fmap_lt _ _ _ _ _ H10); reflexivity).
    rewrite <- Hn1, <- Hn2, lookup_mkvc3 by lia. f_equal.
    unfold at3, A.
    rewrite (nth_fmap_lt _ _ _ _ _ H2), (nth_fmap_lt _ _ _ _ _ H1).
    rewrite nth_lookup, H3. reflexivity.
Qed.

Lemma length_mkvc3_meshgrid (x1 x2 x3 : vec) :
  length (mkvc3 (meshgrid x1 x2 x3).1.1)
  = (length x2 * length x1 * length x3)%nat /\
  length (mkvc3 (meshgrid x1 x2 x3).1.2)
  = (length x2 * length x1 * length x3)%nat /\
  length (mkvc3 (meshgrid x1 x2 x3).2)
  = (length x2 * length x1 * length x3)%nat.
Proof.
  rewrite !length_mkvc3.
  repeat split; apply meshgrid_shape; tauto.
Qed.

Lemma corner_vectors_length (M : mesh) (xn1 xn2 yn1 yn2 zn1 zn2 : vec) :
  mesh_ok M -> corner_vectors M = (xn1, xn2, yn1, yn2, zn1, zn2) ->
  length xn1 = nC M /\ length xn2 = nC M /\ length yn1 = nC M /\
  length yn2 = nC M /\ length zn1 = nC M /\ length zn2 = nC M.
Proof.
  unfold mesh_ok, corner_vectors.
  destruct (kind M) as [xn yn zn | gridCC h_gridded].
  - intros Hok.
    pose proof (length_mkvc3_meshgrid (drop 1 yn) (drop 1 xn) (drop 1 zn))
      as (H2y & H2x & H2z).
    pose proof (length_mkvc3_meshgrid (take (length yn - 1) yn)
                  (take (length xn - 1) xn) (take (length zn - 1) zn))
      as (H1y & H1x & H1z).
    rewrite !length_drop in H2y, H2x, H2z.
    rewrite !length_take, !Nat.min_l in H1y, H1x, H1z by lia.
    destruct (meshgrid (drop 1 yn) (drop 1 xn) (drop 1 zn))
      as [[yn2' xn2'] zn2'].
    destruct (meshgrid (take (length yn - 1) yn) (take (length xn - 1) xn)
                (take (length zn - 1) zn)) as [[yn1' xn1'] zn1'].
    cbn [fst snd] in *.
    intros [= <- <- <- <- <- <-]. rewrite Hok. tauto.
  - intros [Hg Hh] [= <- <- <- <- <- <-].
    rewrite !length_fmap, !length_zip_with, Hg, Hh, Nat.min_id. tauto.
Qed.

(** The arrays of the job are the corners of the mesh at the active
    indices. *)
Lemma geometry_gather (M : mesh) (act : option actInd) (e : bool)
    (xn1 xn2 yn1 yn2 zn1 zn2 : vec) :
  mesh_ok M -> corner_vectors M = (xn1, xn2, yn1, yn2, zn1, zn2) ->
  Forall (fun i => (0 <= i < Z.of_nat (nC M))%Z) (active_inds M act) ->
  geometry M act e =
  Ok (gather (active_inds M act) (zip xn1 xn2),
      gather (active_inds M act) (zip yn1 yn2),
      gather (active_inds M act)
        (zip (if e then sadd zn1 (-1000) else zn1) zn2)).
Proof.
  intros Hok Hcv Hin.
  destruct (corner_vectors_length M _ _ _ _ _ _ Hok Hcv)
    as (Hx1 & Hx2 & Hy1 & Hy2 & Hz1 & Hz2).
  unfold geometry. rewrite Hcv.
  destruct (projector (nC M) (active_inds M act)) as [P | err] eqn:HP;
    [| rewrite projector_ok in HP by exact Hin; discriminate].
  assert (Hproj : forall u1 u2 : vec,
             length u1 = nC M -> length u2 = nC M ->
             project P u1 u2 = Ok (gather (active_inds M act) (zip u1 u2))).
  { intros u1 u2 H1 H2. unfold project, c_.
    rewrite decide_True by congruence.
    apply (sp_mul_arr_projector (nC M)); try assumption.
    rewrite length_zip_with. lia. }
  rewrite (Hproj yn1 yn2), (Hproj xn1 xn2) by assumption.
  rewrite Hproj; [reflexivity | | assumption].
  destruct e; [| assumption]. unfold sadd. by rewrite length_fmap.
Qed.

(** X13: the active cells.  On a mesh whose attributes fit together the
    arrays of a run without [actInd] are those of all the cells; a
    boolean mask keeps the rows of the cells where it holds, in the order
    of the mesh; an array of indices gives the rows at these indices, in
    the order given. *)
Theorem geometry_active_cells (M : mesh) (e : bool) (elems : list bool)
    (inds : list Z) :
  mesh_ok M ->
  (length elems <= nC M)%nat ->
  Forall (fun i => (0 <= i < Z.of_nat (nC M))%Z) inds ->
  exists X Y Z : list (R * R),
    geometry M None e = Ok (X, Y, Z) /\
    length X = nC M /\ length Y = nC M /\ length Z = nC M /\
    geometry M (Some (Mask elems)) e
    = Ok (select elems X, select elems Y, select elems Z) /\
    geometry M (Some (Indices inds)) e
    = Ok (gather inds X, gather inds Y, gather inds Z).
Proof.
  intros Hok Hmask Hinds.
  destruct (corner_vectors M) as [[[[[xn1 xn2] yn1] yn2] zn1] zn2] eqn:Hcv.
  destruct (corner_vectors_length M _ _ _ _ _ _ Hok Hcv)
    as (Hx1 & Hx2 & Hy1 & Hy2 & Hz1 & Hz2).
  set (zn1' := if e then sadd zn1 (-1000) else zn1).
  assert (Hz1' : length zn1' = nC M).
  { unfold zn1'. destruct e; [| assumption].
    unfold sadd. by rewrite length_fmap. }
  assert (HX : length (zip xn1 xn2) = nC M)
    by (rewrite length_zip_with; lia).
  assert (HY : length (zip yn1 yn2) = nC M)
    by (rewrite length_zip_with; lia).
  assert (HZ : length (zip zn1' zn2) = nC M)
    by (rewrite length_zip_with; lia).
  exists (zip xn1 xn2), (zip yn1 yn2), (zip zn1' zn2).
  split; [| split; [| split; [| split; [| split]]]]; try assumption.
  - rewrite (geometry_gather M None e _ _ _ _ _ _ Hok Hcv)
      by apply range_in_range.
    cbn [active_inds]. by rewrite !gather_range.
  - rewrite (geometry_gather M (Some (Mask elems)) e _ _ _ _ _ _ Hok Hcv)
      by (by apply mask_inds_in_range).
    cbn [active_inds]. fold zn1'. by rewrite !gather_mask by lia.
  - by rewrite (geometry_gather M (Some (Indices inds)) e _ _ _ _ _ _ Hok Hcv).
Qed.

Lemma geometry_active_cells_witness :
  exists X Y Z : list (R * R),
    geometry two_cells_tree None true = Ok (X, Y, Z) /\
    length X = 2%nat /\ length Y = 2%nat /\ length Z = 2%nat /\
    geometry two_cells_tree (Some (Mask [false; true])) true
    = Ok (select [false; true] X, select [false; true] Y,
          select [false; true] Z) /\
    geometry two_cells_tree (Some (Indices [1; 1; 0]%Z)) true
    = Ok (gather [1; 1; 0]%Z X, gather [1; 1; 0]%Z Y, gather [1; 1; 0]%Z Z).
Proof.
  apply (geometry_active_cells two_cells_tree true [false; true]
           [1; 1; 0]%Z).
  - split; reflexivity.
  - cbn. lia.
  - repeat constructor; cbn; lia.
Defined.

(** X14: the cells of a tensor mesh.  The cell [(a, b, c)] of a tensor
    mesh with [Nx] by [Ny] by [Nz] cells has the place
    [a + Nx * (b + Ny * c)] in the arrays, [x] running fastest; its
    corners are the nodes [a] and [a + 1] along [x], [b] and [b + 1]
    along [y], [c] and [c + 1] along [z], the lower [z] being 1000 less
    for an equivalent-source layer. *)
Theorem geometry_tensor_cell (M : mesh) (xn yn zn : vec) (e : bool)
    (a b c : nat) :
  kind M = TensorMesh xn yn zn -> mesh_ok M ->
  (a < length xn - 1)%nat -> (b < length yn - 1)%nat ->
  (c < length zn - 1)%nat ->
  exists X Y Z : list (R * R),
    geometry M None e = Ok (X, Y, Z) /\
    let n := (a + (length xn - 1) * (b + (length yn - 1) * c))%nat in
    X !! n = Some (nth a xn 0, nth (S a) xn 0) /\
    Y !! n = Some (nth b yn 0, nth (S b) yn 0) /\
    Z !! n = Some (nth c zn 0 + (if e then -1000 else 0), nth (S c) zn 0).
Proof.
  intros Hkind Hok Ha Hb Hc.
  destruct (corner_vectors M) as [[[[[xn1 xn2] yn1] yn2] zn1] zn2] eqn:Hcv.
  exists (zip xn1 xn2), (zip yn1 yn2),
    (zip (if e then sadd zn1 (-1000) else zn1) zn2).
  destruct (corner_vectors_length M _ _ _ _ _ _ Hok Hcv)
    as (Hx1 & Hx2 & Hy1 & Hy2 & Hz1 & Hz2).
  split.
  - rewrite (geometry_gather M None e _ _ _ _ _ _ Hok Hcv)
      by apply range_in_range.
    cbn [active_inds]. rewrite !gather_range; [reflexivity | | |];
      rewrite length_zip_with; try lia.
    destruct e; [unfold sadd; rewrite length_fmap |]; lia.
  - unfold corner_vectors in Hcv. rewrite Hkind in Hcv.
    assert (Hlo : forall (l : vec) (i : nat),
               (i < length l - 1)%nat ->
               take (length l - 1) l !! i = Some (nth i l 0)).
    { intros l i Hi. rewrite lookup_take_lt by exact Hi.
      apply lookup_nth. lia. }
    assert (Hhi : forall (l : vec) (i : nat),
               (i < length l - 1)%nat -> drop 1 l !! i = Some (nth (S i) l 0)).
    { intros l i Hi. rewrite lookup_drop. apply lookup_nth. lia. }
    pose proof (meshgrid_lookup _ _ _ a b c _ _ _
                  (Hhi yn b Hb) (Hhi xn a Ha) (Hhi zn c Hc)) as H2.
    pose proof (meshgrid_lookup _ _ _ a b c _ _ _
                  (Hlo yn b Hb) (Hlo xn a Ha) (Hlo zn c Hc)) as H1.
    cbn zeta in H1, H2.
    rewrite !length_drop in H2.
    rewrite !length_take, !Nat.min_l in H1 by lia.
    destruct (meshgrid (drop 1 yn) (drop 1 xn) (drop 1 zn))
      as [[yn2' xn2'] zn2'].
    destruct (meshgrid (take (length yn - 1) yn) (take (length xn - 1) xn)
                (take (length zn - 1) zn)) as [[yn1' xn1'] zn1'].
    cbn [fst snd] in H1, H2.
    injection Hcv as <- <- <- <- <- <-.
    destruct H1 as (H1y & H1x & H1z), H2 as (H2y & H2x & H2z).
    cbn zeta. rewrite !lookup_zip_with.
    rewrite H1x, H2x, H1y, H2y, H2z. cbn [mbind option_bind].
    repeat split.
    destruct e.
    + unfold sadd. rewrite list_lookup_fmap, H1z. reflexivity.
    + rewrite H1z. cbn [mbind option_bind]. do 2 f_equal. lra.
Qed.

Lemma geometry_tensor_cell_witness :
  exists X Y Z : list (R * R),
    geometry two_cells None true = Ok (X, Y, Z) /\
    let n := (1 + (length [0; 1; 3] - 1) * (0 + (length [0; 2] - 1) * 0))%nat in
    X !! n = Some (nth 1 [0; 1; 3] 0, nth 2 [0; 1; 3] 0) /\
    Y !! n = Some (nth 0 [0; 2] 0, nth 1 [0; 2] 0) /\
    Z !! n = Some (nth 0 [-4; 0] 0 + -1000, nth 1 [-4; 0] 0).
Proof.
  apply (geometry_tensor_cell two_cells [0; 1; 3] [0; 2] [-4; 0] true 1 0 0);
    try reflexivity; cbn; lia.
Defined.

(** ** The matrices of [Problem3D_Diff] *)

Lemma big_sum_opp (n : nat) (f : nat -> R) :
  - big_sum n f = big_sum n (fun k => - f k).
Proof.
  replace (- big_sum n f) with (-1 * big_sum n f) by ring.
  rewrite big_sum_mult_l. apply big_sum_ext. intros k _. ring.
Qed.

Lemma big_sum_reorder (n1 n2 n3 n4 : nat) (f : nat -> nat -> nat -> nat -> R) :
  big_sum n1 (fun i => big_sum n2 (fun j =>
    big_sum n4 (fun l => big_sum n3 (fun k => f i j k l)))) =
  big_sum n3 (fun k => big_sum n4 (fun l =>
    big_sum n1 (fun i => big_sum n2 (fun j => f i j k l)))).
Proof.
  transitivity
    (big_sum n1 (fun i => big_sum n3 (fun k =>
       big_sum n2 (fun j => big_sum n4 (fun l => f i j k l))))).
  { apply big_sum_ext. intros i _.
    rewrite (big_sum_swap n3 n2).
    apply big_sum_ext. intros j _. apply big_sum_swap. }
  rewrite (big_sum_swap n1 n3).
  apply big_sum_ext. intros k _.
  rewrite (big_sum_swap n4 n1).
  apply big_sum_ext. intros i _. apply big_sum_swap.
Qed.

(** [v^T (-D^T M D) v = - (D v)^T M (D v)]. *)
Lemma quad_form_congruence (nC nF : nat) (Df Mf : nat -> nat -> R)
    (v : nat -> R) :
  big_sum nC (fun i => big_sum nC (fun j =>
    v i * big_sum nF (fun l =>
            big_sum nF (fun k => - Df k i * Mf k l) * Df l j) * v j)) =
  - big_sum nF (fun k => big_sum nF (fun l =>
      big_sum nC (fun i => Df k i * v i) * Mf k l *
      big_sum nC (fun j => Df l j * v j))).
Proof.
  transitivity
    (big_sum nC (fun i => big_sum nC (fun j =>
       big_sum nF (fun l => big_sum nF (fun k =>
         - (Df k i * v i * Mf k l * (Df l j * v j))))))).
  { apply big_sum_ext. intros i _. apply big_sum_ext. intros j _.
    rewrite big_sum_mult_l, big_sum_mult_r.
    apply big_sum_ext. intros l _.
    rewrite big_sum_mult_r, big_sum_mult_l, big_sum_mult_r.
    apply big_sum_ext. intros k _. ring. }
  rewrite (big_sum_reorder nC nC nF nF
             (fun i j k l => - (Df k i * v i * Mf k l * (Df l j * v j)))).
  rewrite big_sum_opp. apply big_sum_ext. intros k _.
  rewrite big_sum_opp. apply big_sum_ext. intros l _.
  rewrite big_sum_mult_r, big_sum_mult_r, big_sum_opp.
  apply big_sum_ext. intros i _.
  rewrite big_sum_mult_l, big_sum_opp.
  apply big_sum_ext. intros j _. ring.
Qed.

Section Differential.
Import Problem3D_Diff.

(** X15: the matrix of the differential problem.  After
    [makeMassMatrices], for a gradient with as many rows as the face
    inner product has rows and columns, [getA] returns a square matrix
    with one row for each column of the gradient; it is symmetric when
    the inner product is, and [v^T A v <= 0] for every [v] when the
    inner product is positive semi-definite. *)
Theorem getA_symmetric_negative (self : t) (m : vec) :
  nrows (getFaceInnerProduct self) = nrows (_Div self) ->
  ncols (getFaceInnerProduct self) = nrows (_Div self) ->
  exists A : spmatrix,
    getA (makeMassMatrices m self) = Ok A /\
    nrows A = ncols (_Div self) /\ ncols A = ncols (_Div self) /\
    ((forall k l : nat,
         entry (getFaceInnerProduct self) k l
         = entry (getFaceInnerProduct self) l k) ->
     forall i j : nat, entry A i j = entry A j i) /\
    ((forall u : nat -> R, 0 <= quad_form (getFaceInnerProduct self) u) ->
     forall v : nat -> R, quad_form A v <= 0).
Proof.
  intros Hr Hc.
  set (D := _Div self) in *. set (M := getFaceInnerProduct self) in *.
  eexists. split; [| split; [| split; [| split]]].
  - unfold getA, makeMassMatrices. cbn [_Mfi _Div]. fold D M.
    unfold sp_mul at 1. cbn [ncols nrows sp_neg sp_T entry].
    rewrite decide_True by congruence.
    unfold sp_mul. cbn [ncols nrows entry].
    rewrite decide_True by congruence. reflexivity.
  - reflexivity.
  - reflexivity.
  - intros Hsym i j. cbn [entry]. rewrite Hc.
    transitivity
      (big_sum (nrows D) (fun l => big_sum (nrows D) (fun k =>
         - entry D k i * entry M k l * entry D l j))).
    { apply big_sum_ext. intros l _. apply big_sum_mult_r. }
    transitivity
      (big_sum (nrows D) (fun k => big_sum (nrows D) (fun l =>
         - entry D l j * entry M l k * entry D k i))).
    { rewrite big_sum_swap. apply big_sum_ext. intros k _.
      apply big_sum_ext. intros l _. rewrite (Hsym l k). ring. }
    apply big_sum_ext. intros l _. symmetry. apply big_sum_mult_r.
  - intros Hpsd v. unfold quad_form at 1. cbn [nrows ncols entry].
    rewrite Hc, quad_form_congruence.
    specialize (Hpsd (fun k => big_sum (ncols D) (fun i => entry D k i * v i))).
    unfold quad_form in Hpsd. rewrite Hr, Hc in Hpsd. lra.
Qed.

Lemma getA_symmetric_negative_witness :
  exists A : spmatrix,
    getA (makeMassMatrices [1; 1] diff_problem) = Ok A /\
    nrows A = 2%nat /\ ncols A = 2%nat /\
    (forall i j : nat, entry A i j = entry A j i) /\
    (forall v : nat -> R, quad_form A v <= 0).
Proof.
  destruct (getA_symmetric_negative diff_problem [1; 1])
    as (A & HA & Hr & Hc & Hsym & Hneg); try reflexivity.
  exists A. repeat split; try assumption.
  - apply Hsym. intros k l.
    cbn [getFaceInnerProduct diff_problem sdiag entry].
    repeat case_decide; congruence.
  - apply Hneg. intros u.
    unfold quad_form, big_sum.
    cbn [getFaceInnerProduct diff_problem sdiag entry nrows ncols length
         seq foldr nth].
    repeat case_decide; try lia. nra.
Defined.

(** X16: the inverse of the face inner product.  For a square, diagonal
    face inner product without a zero on its diagonal,
    [makeMassMatrices] leaves in [_MfI] its inverse: [MfI * Mfi] is the
    identity matrix. *)
Theorem makeMassMatrices_inverse (self : t) (m : vec) :
  ncols (getFaceInnerProduct self) = nrows (getFaceInnerProduct self) ->
  (forall i k : nat, i <> k -> entry (getFaceInnerProduct self) i k = 0) ->
  (forall i : nat,
      (i < nrows (getFaceInnerProduct self))%nat ->
      entry (getFaceInnerProduct self) i i <> 0) ->
  exists Mfi MfI P : spmatrix,
    _Mfi (makeMassMatrices m self) = Some Mfi /\
    _MfI (makeMassMatrices m self) = Some MfI /\
    model (makeMassMatrices m self) = Some m /\
    sp_mul MfI Mfi = Ok P /\
    nrows P = nrows Mfi /\ ncols P = nrows Mfi /\
    forall i j : nat,
      (i < nrows Mfi)%nat ->
      entry P i j = if decide (i = j) then 1 else 0.
Proof.
  intros Hsq Hdiag Hnz.
  set (M := getFaceInnerProduct self) in *.
  set (d := (fun x => 1 / x) <$> sp_diagonal M).
  assert (Hd : length d = nrows M).
  { unfold d, sp_diagonal. rewrite !length_fmap, length_seq, Hsq. lia. }
  assert (HP : exists P, sp_mul (sdiag d) M = Ok P /\
                         nrows P = nrows M /\ ncols P = nrows M).
  { unfold sp_mul. rewrite decide_True by (cbn [ncols sdiag]; exact Hd).
    eexists. split; [reflexivity |]. cbn [nrows ncols sdiag]. split; congruence. }
  destruct HP as (P & HP & HPr & HPc).
  exists M, (sdiag d), P.
  repeat split; try assumption.
  intros i j Hi.
  rewrite (sdiag_mul_entry _ _ _ i j HP) by (rewrite Hd; exact Hi).
  assert (Hdi : nth i d 0 = 1 / entry M i i).
  { unfold d, sp_diagonal. rewrite <- list_fmap_compose.
    rewrite nth_fmap_seq by (rewrite Hsq; lia). reflexivity. }
  rewrite Hdi. case_decide as Hij.
  - subst j. field. by apply Hnz.
  - rewrite (Hdiag i j Hij). lra.
Qed.

Lemma makeMassMatrices_inverse_witness :
  exists Mfi MfI P : spmatrix,
    _Mfi (makeMassMatrices [1; 1] diff_problem) = Some Mfi /\
    _MfI (makeMassMatrices [1; 1] diff_problem) = Some MfI /\
    model (makeMassMatrices [1; 1] diff_problem) = Some [1; 1] /\
    sp_mul MfI Mfi = Ok P /\
    nrows P = nrows Mfi /\ ncols P = nrows Mfi /\
    forall i j : nat,
      (i < nrows Mfi)%nat ->
      entry P i j = if decide (i = j) then 1 else 0.
Proof.
  apply (makeMassMatrices_inverse diff_problem [1; 1]).
  - reflexivity.
  - intros i k Hik. cbn [getFaceInnerProduct diff_problem sdiag entry].
    by rewrite decide_False.
  - intros i Hi. cbn [getFaceInnerProduct diff_problem sdiag entry nrows length] in *.
    rewrite decide_True by reflexivity.
    destruct i as [| [| [| i]]]; cbn [nth]; try lra; lia.
Defined.

End Differential.
